(** * Ed25519 private keys of the Hedera SDK: construction, derivation, encodings

    A shallow embedding of [src/crypto/Ed25519PrivateKey.ts].  Byte arrays
    ([Uint8Array]) are lists of bytes, strings are sequences of 8-bit code
    units, a thrown exception or a rejected promise is the [Throw] branch of
    [result], and the one mutable cache of the class ([_asStringRaw]) is
    threaded through [toString] by explicit state passing.  The last part of
    the file refines the byte arrays to views over a store of buffers, to
    reason about aliasing. *)

From Stdlib Require Import ZArith NArith Ascii String.
From Stdlib.Strings Require Import Byte.
From stdpp Require Import base tactics option list strings.

Local Open Scope string_scope.
Local Open Scope list_scope.
Local Open Scope nat_scope.

(** ** Exceptions *)

Inductive error : Type :=
| BadKeyError                 (* errors/BadKeyError *)
| KeyMismatchError            (* the keystore's authentication failure *)
| KeystoreFormatError         (* a structurally malformed keystore blob *)
| Error (message : string).   (* a plain JavaScript [Error] *)

Inductive result (A : Type) : Type :=
| Ok (value : A)
| Throw (e : error).
Arguments Ok {A} value.
Arguments Throw {A} e.

Definition bind {A B : Type} (r : result A) (k : A → result B) : result B :=
  match r with
  | Ok a => k a
  | Throw e => Throw e
  end.

Notation "'try' x ← r ; k" := (bind r (λ x, k))
  (at level 10, x name, r at level 100, k at level 200,
   format "'[v' 'try'  x  ←  r ;  '/' k ']'").

Definition succeeds {A : Type} (r : result A) : Prop := ∃ a, r = Ok a.

(** ** Bytes and typed-array slicing *)

Abbreviation bytes := (list byte).

(** [a.subarray(b, e)] and [a.slice(b, e)] select the same elements; they
    differ in whether the result shares storage with [a], which only the
    store refinement at the end of the file can tell apart. *)
Definition subarray (a : bytes) (b e : nat) : bytes := take (e - b) (drop b a).
Definition slice (a : bytes) (b e : nat) : bytes := take (e - b) (drop b a).

Definition byte_of_N (n : N) : byte := default x00 (Byte.of_N (n mod 256)).
Definition byte_of_Z (z : Z) : byte := byte_of_N (Z.to_N (z mod 256)).

(** The bytes of an ASCII string, as Node turns a string key into a buffer. *)
Definition bytes_of_string (s : string) : bytes := list_byte_of_string s.

(** ** Hexadecimal codec ([encodeHex] and [decodeHex] of crypto/util) *)

Definition hexDigit (n : N) : ascii :=
  if (n <? 10)%N then ascii_of_N (48 + n) else ascii_of_N (87 + n).

Definition hexValue (c : ascii) : option N :=
  let n := N_of_ascii c in
  if ((48 <=? n) && (n <=? 57))%N then Some (n - 48)%N
  else if ((97 <=? n) && (n <=? 102))%N then Some (n - 87)%N
  else if ((65 <=? n) && (n <=? 70))%N then Some (n - 55)%N
  else None.

Definition isHexDigit (c : ascii) : bool :=
  match hexValue c with Some _ => true | None => false end.

Fixpoint isHex (s : string) : bool :=
  match s with
  | EmptyString => true
  | String c rest => isHexDigit c && isHex rest
  end.

(** Modelled from the spec: [encodeHex] of crypto/util is not part of the
    sources at hand; the spec has it produce the lowercase hexadecimal
    digits of the bytes, two per byte, high nibble first. *)
Fixpoint encodeHex (data : bytes) : string :=
  match data with
  | [] => EmptyString
  | b :: rest =>
      String (hexDigit (Byte.to_N b / 16))
        (String (hexDigit (Byte.to_N b mod 16)) (encodeHex rest))
  end.

(** Lowercasing of a string, to compare hexadecimal text up to letter case. *)
Definition lowerChar (c : ascii) : ascii :=
  let n := N_of_ascii c in
  if ((65 <=? n) && (n <=? 90))%N then ascii_of_N (n + 32) else c.

Fixpoint toLowerCase (s : string) : string :=
  match s with
  | EmptyString => EmptyString
  | String c rest => String (lowerChar c) (toLowerCase rest)
  end.

(** ** Trusted primitives

    The platform's cryptography is not re-implemented: the class below names
    what the key code calls and states the only facts about it that the code
    relies on, the sizes of the outputs.  [ed25519_public] is the public key
    that tweetnacl's [crypto_sign_keypair] computes from a seed.  The class
    also holds what the sources at hand leave open: the prefix constant, and
    what the hexadecimal decoder makes of characters that are not digits. *)

Inductive HashAlgorithm : Type := sha256 | sha384 | sha512.

Class Primitives : Type := {
  ed25519_public : bytes → bytes;
  ed25519_public_length : ∀ seed, length (ed25519_public seed) = 32;
  hmac_sha512 : bytes → bytes → bytes;
  hmac_sha512_length : ∀ key message, length (hmac_sha512 key message) = 64;
  pbkdf2 : string → string → nat → nat → HashAlgorithm → bytes;
  pbkdf2_length :
    ∀ password salt iterations keylen digest,
      length (pbkdf2 password salt iterations keylen digest) = keylen;
  (* the constant [ed25519PrivKeyPrefix] of crypto/util *)
  ed25519PrivKeyPrefix : string;
  ed25519PrivKeyPrefix_length : String.length ed25519PrivKeyPrefix = 32;
  (* the byte that [decodeHex] of crypto/util makes of two characters that
     are not both hexadecimal digits *)
  decodeHex_other : ascii → ascii → byte
}.

(** Modelled from the spec: the keystore codec of crypto/Keystore is not
    part of the sources at hand.  The spec gives its contract: an encoder
    from plaintext bytes and a passphrase to an opaque blob, and a decoder
    that returns the plaintext under the same passphrase, reports an
    authentication failure under any other, and a format error on a blob
    that is structurally malformed. *)
Class KeystoreCodec : Type := {
  keystore_encode : bytes → string → bytes;
  keystore_decode : bytes → string → result bytes;
  keystore_decode_encode :
    ∀ data passphrase,
      keystore_decode (keystore_encode data passphrase) passphrase = Ok data;
  keystore_decode_mismatch :
    ∀ data passphrase other,
      other ≠ passphrase →
      keystore_decode (keystore_encode data passphrase) other
      = Throw KeyMismatchError
}.

(** ** Collaborators *)

(** Modelled from the spec: the [Mnemonic] class is not part of the sources
    at hand; the spec has it expose one operation, rendering the words as a
    phrase joined by single spaces. *)
Record Mnemonic : Type := { words : list string }.

Definition Mnemonic_toString (m : Mnemonic) : string :=
  String.concat " " (words m).

(** Modelled from the spec: the [Ed25519PublicKey] class is not part of the
    sources at hand; the spec has it built from 32 raw bytes. *)
Record Ed25519PublicKey : Type := { pk_keyData : bytes }.

Definition Ed25519PublicKey_fromBytes (data : bytes) : result Ed25519PublicKey :=
  if decide (length data = 32) then Ok {| pk_keyData := data |}
  else Throw BadKeyError.

(** Modelled from the spec: [randomBytes] of crypto/util is not part of the
    sources at hand; the spec has it return [n] bytes drawn from the secure
    random source, here the stream [source]. *)
Definition randomBytes (source : nat → byte) (n : nat) : bytes :=
  map source (seq 0 n).

Record RawKeyPair : Type := { privateKey : bytes; publicKey : bytes }.

Section Ed25519PrivateKey.
Context {prims : Primitives}.

(** *** The hexadecimal decoder *)

Definition decodePair (c1 c2 : ascii) : byte :=
  match hexValue c1, hexValue c2 with
  | Some h, Some l => byte_of_N (16 * h + l)
  | _, _ => decodeHex_other c1 c2
  end.

(** Modelled from the spec: [decodeHex] of crypto/util is not part of the
    sources at hand; the spec has it decode hexadecimal text, two digits per
    byte.  Digits of either case are read.  No character is rejected: two
    characters that are not both hexadecimal digits give a byte all the
    same, of which nothing is assumed ([decodeHex_other]).  The key code
    passes text of 64 or 128 characters only; text of odd length is given
    no decoding here. *)
Fixpoint decodeHex (s : string) : result bytes :=
  match s with
  | EmptyString => Ok []
  | String c1 (String c2 rest) =>
      try tail ← decodeHex rest;
      Ok (decodePair c1 c2 :: tail)
  | String _ EmptyString => Throw (Error "hex code must be even length")
  end.

(** *** tweetnacl's key pairs *)

(** [nacl.sign.keyPair.fromSeed]: the secret key is the seed followed by
    the public key computed from it. *)
Definition nacl_sign_keyPair_fromSeed (seed : bytes) : result RawKeyPair :=
  if decide (length seed = 32) then
    Ok {| privateKey := seed ++ ed25519_public seed;
          publicKey := ed25519_public seed |}
  else Throw (Error "bad seed size").

(** [nacl.sign.keyPair.fromSecretKey]: the public key is read off the
    second half of the secret key, unchecked. *)
Definition nacl_sign_keyPair_fromSecretKey (secretKey : bytes) : result RawKeyPair :=
  if decide (length secretKey = 64) then
    Ok {| privateKey := secretKey; publicKey := drop 32 secretKey |}
  else Throw (Error "bad secret key size").

Definition nacl_sign_secretKeyLength : nat := 64.

(** *** The child-derivation step *)

Definition bigEndian32 (n : Z) : bytes :=
  [byte_of_Z (n / 16777216); byte_of_Z (n / 65536);
   byte_of_Z (n / 256); byte_of_Z n].

Definition hardened (index : Z) : Z := Z.lor (index mod 4294967296) 2147483648.

(** Modelled from the spec: [deriveChildKey] of crypto/util is not part of
    the sources at hand.  The spec has it compute HMAC-SHA512, keyed with
    the chain code, over a zero byte, the key bytes and the big-endian
    hardened index; the left half of the digest is the child key and the
    right half the child chain code. *)
Definition deriveChildKey (parentKey chainCode : bytes) (index : Z) : bytes * bytes :=
  let input := x00 :: parentKey ++ bigEndian32 (hardened index) in
  let digest := hmac_sha512 chainCode input in
  (subarray digest 0 32, drop 32 digest).

(** *** The class *)

Record Ed25519PrivateKey : Type := {
  key_publicKey : Ed25519PublicKey;
  _keyData : bytes;
  _asStringRaw : option string;
  _chainCode : option bytes
}.

Definition set_asStringRaw (k : Ed25519PrivateKey) (s : string) : Ed25519PrivateKey :=
  {| key_publicKey := key_publicKey k; _keyData := _keyData k;
     _asStringRaw := Some s; _chainCode := _chainCode k |}.

Definition set_chainCode (k : Ed25519PrivateKey) (c : bytes) : Ed25519PrivateKey :=
  {| key_publicKey := key_publicKey k; _keyData := _keyData k;
     _asStringRaw := _asStringRaw k; _chainCode := Some c |}.

(** The private constructor. *)
Definition new_Ed25519PrivateKey (pair : RawKeyPair) : result Ed25519PrivateKey :=
  if decide (length (privateKey pair) ≠ nacl_sign_secretKeyLength) then
    Throw BadKeyError
  else
    try pk ← Ed25519PublicKey_fromBytes (publicKey pair);
    Ok {| key_publicKey := pk; _keyData := privateKey pair;
          _asStringRaw := None; _chainCode := None |}.

Definition fromBytes (data : bytes) : result Ed25519PrivateKey :=
  try keypair ←
    (match length data with
     | 32 => nacl_sign_keyPair_fromSeed data
     | 64 => nacl_sign_keyPair_fromSecretKey data
     | _ => Throw BadKeyError
     end);
  new_Ed25519PrivateKey keypair.

Definition startsWith (s prefix : string) : bool :=
  String.eqb (String.substring 0 (String.length prefix) s) prefix.

(** [s.slice(n)]: the string from position [n] on. *)
Definition string_slice (s : string) (n : nat) : string :=
  String.substring n (String.length s - n) s.

Definition fromString (keyStr : string) : result Ed25519PrivateKey :=
  match String.length keyStr with
  | 64 | 128 =>
      try data ← decodeHex keyStr;
      try newKey ← fromBytes data;
      Ok (set_asStringRaw newKey keyStr)
  | 96 =>
      if startsWith keyStr ed25519PrivKeyPrefix then
        let rawStr := string_slice keyStr 32 in
        try data ← decodeHex rawStr;
        try newKey ← fromBytes data;
        Ok (set_asStringRaw newKey rawStr)
      else Throw BadKeyError
  | _ => Throw BadKeyError
  end.

Definition derivationPath : list Z := [44; 3030; 0; 0]%Z.

Definition fromMnemonic (mnemonic : Mnemonic) (passphrase : string)
  : result Ed25519PrivateKey :=
  let input := Mnemonic_toString mnemonic in
  let salt := "mnemonic" +:+ passphrase in
  let seed := pbkdf2 input salt 2048 64 sha512 in
  let digest := hmac_sha512 (bytes_of_string "ed25519 seed") seed in
  let '(keyBytes, chainCode) :=
    fold_left (λ state index, deriveChildKey state.1 state.2 index)
      derivationPath (subarray digest 0 32, drop 32 digest) in
  try key ← fromBytes keyBytes;
  Ok (set_chainCode key chainCode).

Definition generate (source : nat → byte) : result Ed25519PrivateKey :=
  fromBytes (randomBytes source 32).

Definition derive (this : Ed25519PrivateKey) (index : Z) : result Ed25519PrivateKey :=
  match _chainCode this with
  | None => Throw (Error "this Ed25519 private key does not support key derivation")
  | Some parentChainCode =>
      let '(keyBytes, chainCode) :=
        deriveChildKey (subarray (_keyData this) 0 32) parentChainCode index in
      try key ← fromBytes keyBytes;
      Ok (set_chainCode key chainCode)
  end.

Definition supportsDerivation (this : Ed25519PrivateKey) : bool :=
  match _chainCode this with Some _ => true | None => false end.

Definition toBytes (this : Ed25519PrivateKey) : bytes :=
  slice (_keyData this) 0 32.

(** [toString] fills the cache on first use: it returns the string and the
    key as the call leaves it. *)
Definition toString (this : Ed25519PrivateKey) (raw : bool)
  : string * Ed25519PrivateKey :=
  let asStringRaw :=
    match _asStringRaw this with
    | None => encodeHex (subarray (_keyData this) 0 32)
    | Some cached => cached
    end in
  ((if raw then EmptyString else ed25519PrivKeyPrefix) +:+ asStringRaw,
   set_asStringRaw this asStringRaw).

(** *** The keystore *)

Context {codec : KeystoreCodec}.

(** Modelled from the spec: [createKeystore] of crypto/Keystore is not part
    of the sources at hand; it is the encoder of the codec, applied to the
    bytes it is given. *)
Definition createKeystore (data : bytes) (passphrase : string) : bytes :=
  keystore_encode data passphrase.

(** Modelled from the spec: [loadKeystore] of crypto/Keystore is not part
    of the sources at hand.  It decodes the blob and hands the plaintext
    to the key-pair primitive for secret keys, which gives the raw key
    pair that the constructor call of [fromKeystore] takes. *)
Definition loadKeystore (keystore : bytes) (passphrase : string) : result RawKeyPair :=
  try data ← keystore_decode keystore passphrase;
  nacl_sign_keyPair_fromSecretKey data.

Definition fromKeystore (keystore : bytes) (passphrase : string)
  : result Ed25519PrivateKey :=
  try pair ← loadKeystore keystore passphrase;
  new_Ed25519PrivateKey pair.

Definition toKeystore (this : Ed25519PrivateKey) (passphrase : string) : bytes :=
  createKeystore (_keyData this) passphrase.

(** *** Where a key comes from

    [Built o k]: the key [k] is a state that a key of origin [o] can be
    in, that is, the value returned by the construction path [o], or that
    value after any number of [toString] calls (the only method that
    assigns to a field).  A key read from text remembers the length of
    the text. *)

Inductive origin : Type :=
| ByBytes | ByString (length : nat) | ByMnemonic | ByKeystore | ByGenerate
| ByDerive.

Inductive Built : origin → Ed25519PrivateKey → Prop :=
| built_fromBytes data k :
    fromBytes data = Ok k → Built ByBytes k
| built_fromString keyStr k :
    fromString keyStr = Ok k → Built (ByString (String.length keyStr)) k
| built_fromMnemonic mnemonic passphrase k :
    fromMnemonic mnemonic passphrase = Ok k → Built ByMnemonic k
| built_fromKeystore keystore passphrase k :
    fromKeystore keystore passphrase = Ok k → Built ByKeystore k
| built_generate source k :
    generate source = Ok k → Built ByGenerate k
| built_derive o parent index k :
    Built o parent → derive parent index = Ok k → Built ByDerive k
| built_toString o k raw :
    Built o k → Built o (toString k raw).2.

Definition derivable (o : origin) : bool :=
  match o with ByMnemonic | ByDerive => true | _ => false end.

Definition with_keyData (k : Ed25519PrivateKey) (data : bytes) : Ed25519PrivateKey :=
  {| key_publicKey := key_publicKey k; _keyData := data;
     _asStringRaw := _asStringRaw k; _chainCode := _chainCode k |}.

(** The two shapes of a freshly built key: from a seed, and from a seed
    followed by a public key. *)
Definition seedKey (seed : bytes) : Ed25519PrivateKey :=
  {| key_publicKey := {| pk_keyData := ed25519_public seed |};
     _keyData := seed ++ ed25519_public seed;
     _asStringRaw := None; _chainCode := None |}.

Definition pairKey (data : bytes) : Ed25519PrivateKey :=
  {| key_publicKey := {| pk_keyData := drop 32 data |};
     _keyData := data;
     _asStringRaw := None; _chainCode := None |}.

(** What the cache of a key of origin [o] may hold: nothing yet, the
    encoding of the seed, or the text the key was read from. *)
Definition cached (o : origin) (k : Ed25519PrivateKey) : Prop :=
  match _asStringRaw k with
  | None => True
  | Some s =>
      s = encodeHex (toBytes k) ∨
      ∃ n data, o = ByString n ∧ decodeHex s = Ok data ∧
                toBytes k = take 32 data ∧
                (n = 128 ∧ String.length s = 128 ∨
                 n ≠ 128 ∧ String.length s = 64)
  end.

Definition invariant (o : origin) (k : Ed25519PrivateKey) : Prop :=
  length (_keyData k) = 64 ∧
  pk_keyData (key_publicKey k) = drop 32 (_keyData k) ∧
  match _chainCode k with
  | Some c => derivable o = true ∧ length c = 32
  | None => derivable o = false
  end ∧
  cached o k.

(** *** The mnemonic pipeline, step by step as the documentation gives it *)

Definition fromMnemonic_steps (mnemonic : Mnemonic) (passphrase : string)
  : bytes * bytes :=
  let phrase := Mnemonic_toString mnemonic in
  let seed := pbkdf2 phrase ("mnemonic" +:+ passphrase) 2048 64 sha512 in
  let digest := hmac_sha512 (bytes_of_string "ed25519 seed") seed in
  let key0 := take 32 digest in
  let chain0 := drop 32 digest in
  let '(key1, chain1) := deriveChildKey key0 chain0 44 in
  let '(key2, chain2) := deriveChildKey key1 chain1 3030 in
  let '(key3, chain3) := deriveChildKey key2 chain2 0 in
  deriveChildKey key3 chain3 0.

End Ed25519PrivateKey.

(** ** Byte arrays as views over a store of buffers

    A [Uint8Array] is a window on an [ArrayBuffer]: [subarray] gives a second
    window on the same buffer, [slice] and [new Uint8Array(a)] copy into a
    buffer of their own.  The store lists the buffers in allocation order; a
    write through any window updates the buffer it looks at. *)

Module Store.

Record view : Type := { buffer : nat; byteOffset : nat; byteLength : nat }.

Definition contents (σ : list bytes) (v : view) : bytes :=
  take (byteLength v) (drop (byteOffset v) (default [] (σ !! buffer v))).

Definition alloc (σ : list bytes) (data : bytes) : list bytes * view :=
  (σ ++ [data],
   {| buffer := length σ; byteOffset := 0; byteLength := length data |}).

Definition subarray (v : view) (b e : nat) : view :=
  let b' := b `min` byteLength v in
  let e' := e `min` byteLength v in
  {| buffer := buffer v; byteOffset := byteOffset v + b'; byteLength := e' - b' |}.

Definition slice (σ : list bytes) (v : view) (b e : nat) : list bytes * view :=
  alloc σ (contents σ (subarray v b e)).

(** [v[i] = x]; an index outside the window is ignored. *)
Definition write (σ : list bytes) (v : view) (i : nat) (x : byte) : list bytes :=
  if decide (i < byteLength v) then
    match σ !! buffer v with
    | Some data => <[buffer v := <[byteOffset v + i := x]> data]> σ
    | None => σ
    end
  else σ.

Definition writes (σ : list bytes) (ws : list (view * nat * byte)) : list bytes :=
  foldl (λ σ' w, write σ' w.1.1 w.1.2 w.2) σ ws.

Definition allocated (σ : list bytes) (v : view) : Prop := buffer v < length σ.

(** The key object, its byte arrays held by reference. *)
Record KeyObject : Type := {
  publicKey : Ed25519PublicKey;
  keyData : view;
  asStringRaw : option string;
  chainCode : option view
}.

Definition set_chainCode (k : KeyObject) (c : view) : KeyObject :=
  {| publicKey := publicKey k; keyData := keyData k;
     asStringRaw := asStringRaw k; chainCode := Some c |}.

Definition set_asStringRaw (k : KeyObject) (s : string) : KeyObject :=
  {| publicKey := publicKey k; keyData := keyData k;
     asStringRaw := Some s; chainCode := chainCode k |}.

Definition valid (σ : list bytes) (k : KeyObject) : Prop :=
  allocated σ (keyData k) ∧
  match chainCode k with Some c => allocated σ c | None => True end.

Section Ed25519PrivateKey.
Context {prims : Primitives}.

(** The value a key object stands for in a given store. *)
Definition snapshot (σ : list bytes) (k : KeyObject) : Ed25519PrivateKey :=
  {| key_publicKey := publicKey k;
     _keyData := contents σ (keyData k);
     _asStringRaw := asStringRaw k;
     _chainCode := contents σ <$> chainCode k |}.

Definition snapshot_result (r : result (list bytes * KeyObject))
  : result Ed25519PrivateKey :=
  try out ← r; Ok (snapshot out.1 out.2).

(** tweetnacl allocates the public key and the secret key afresh. *)
Definition nacl_sign_keyPair_fromSeed (σ : list bytes) (seed : view)
  : result (list bytes * (view * view)) :=
  if decide (length (contents σ seed) = 32) then
    let '(σ1, pk) := alloc σ (ed25519_public (contents σ seed)) in
    let '(σ2, sk) := alloc σ1 (contents σ seed ++ ed25519_public (contents σ seed)) in
    Ok (σ2, (sk, pk))
  else Throw (Error "bad seed size").

Definition nacl_sign_keyPair_fromSecretKey (σ : list bytes) (secretKey : view)
  : result (list bytes * (view * view)) :=
  if decide (length (contents σ secretKey) = 64) then
    let '(σ1, pk) := alloc σ (drop 32 (contents σ secretKey)) in
    let '(σ2, sk) := alloc σ1 (contents σ secretKey) in
    Ok (σ2, (sk, pk))
  else Throw (Error "bad secret key size").

Definition new_Ed25519PrivateKey (σ : list bytes) (pair : view * view)
  : result (list bytes * KeyObject) :=
  if decide (length (contents σ pair.1) ≠ nacl_sign_secretKeyLength) then
    Throw BadKeyError
  else
    try pk ← Ed25519PublicKey_fromBytes (contents σ pair.2);
    Ok (σ, {| publicKey := pk; keyData := pair.1;
              asStringRaw := None; chainCode := None |}).

Definition fromBytes (σ : list bytes) (data : view)
  : result (list bytes * KeyObject) :=
  try keypair ←
    (match length (contents σ data) with
     | 32 => nacl_sign_keyPair_fromSeed σ data
     | 64 => nacl_sign_keyPair_fromSecretKey σ data
     | _ => Throw BadKeyError
     end);
  new_Ed25519PrivateKey keypair.1 keypair.2.

(** The derivation step writes its input and the digest into buffers of
    their own; the two halves it returns are windows on the digest. *)
Definition deriveChildKey (σ : list bytes) (parentKey chain : view) (index : Z)
  : list bytes * (view * view) :=
  let '(σ1, input) :=
    alloc σ (x00 :: contents σ parentKey ++ bigEndian32 (hardened index)) in
  let '(σ2, digest) :=
    alloc σ1 (hmac_sha512 (contents σ1 chain) (contents σ1 input)) in
  (σ2, (subarray digest 0 32, subarray digest 32 (byteLength digest))).

Definition derive (σ : list bytes) (this : KeyObject) (index : Z)
  : result (list bytes * KeyObject) :=
  match chainCode this with
  | None => Throw (Error "this Ed25519 private key does not support key derivation")
  | Some parentChainCode =>
      let '(σ1, (keyBytes, childChainCode)) :=
        deriveChildKey σ (subarray (keyData this) 0 32) parentChainCode index in
      try out ← fromBytes σ1 keyBytes;
      Ok (out.1, set_chainCode out.2 childChainCode)
  end.

Definition toBytes (σ : list bytes) (this : KeyObject) : list bytes * view :=
  slice σ (keyData this) 0 32.

Definition toString (σ : list bytes) (this : KeyObject) (raw : bool)
  : string * KeyObject :=
  let cached :=
    match asStringRaw this with
    | None => encodeHex (contents σ (subarray (keyData this) 0 32))
    | Some cached => cached
    end in
  ((if raw then EmptyString else ed25519PrivKeyPrefix) +:+ cached,
   set_asStringRaw this cached).

End Ed25519PrivateKey.

End Store.

(** ** Derivation along a path *)

Section Derivation.
Context {prims : Primitives}.

(** [k.derive(i1).derive(i2)...]: the calls chained, the first exception
    ending the chain. *)
Definition deriveAll (k : Ed25519PrivateKey) (path : list Z) : result Ed25519PrivateKey :=
  foldl (λ r index, try key ← r; derive key index) (Ok k) path.

(** The origins whose public key is computed from the seed. *)
Definition computesPublicKey (o : origin) : bool :=
  match o with
  | ByMnemonic | ByDerive | ByGenerate => true
  | ByString n => bool_decide (n = 64 ∨ n = 96)
  | ByBytes | ByKeystore => false
  end.

End Derivation.

(** ** The retry loop of [HederaExecutable]

    The methods of the class are abstract and work on state of their own
    (the request under construction, the client, the network): each is a
    function from that state to a result and the state it leaves, an
    exception leaving the state as it was when thrown.  What the loop itself
    does to the outside, writing to the console and sleeping, is recorded as
    a trace of events. *)

Record Status : Type := { code : Z }.

(** A delay in milliseconds as the loop computes it, a double: finite, or
    the infinity that the product overflows to. *)
Inductive millis : Type := Finite (ms : N) | Infinity.

(** [Math.floor(250 * Math.pow(2, attempt))].  The product is an integer and
    exact in double precision as long as it is finite, which it is up to
    attempt 1016 (250 * 2^1016 is below 2^1024, 250 * 2^1017 is not). *)
Definition delayOf (attempt : nat) : millis :=
  if decide (attempt ≤ 1016) then Finite (250 * 2 ^ N.of_nat attempt) else Infinity.

Inductive event : Type :=
| ConsoleLog (label : string) (value : Status + error)
| Sleep (delay : millis).

Definition slept (trace : list event) : list millis :=
  omap (λ ev, match ev with Sleep d => Some d | ConsoleLog _ _ => None end) trace.

Definition addMillis (a b : millis) : millis :=
  match a, b with
  | Finite x, Finite y => Finite (x + y)
  | _, _ => Infinity
  end.

Definition totalMillis (delays : list millis) : millis :=
  foldr addMillis (Finite 0) delays.

(** What a call hands back to an [async] function that returns it without
    awaiting it: a value, or a promise that fulfils with it, or a promise
    that rejects.  The promise of the [async] function settles likewise. *)
Inductive returned (A : Type) : Type :=
| Fulfils (value : A)
| Rejects (e : error).
Arguments Fulfils {A} value.
Arguments Rejects {A} e.

Definition settled {A : Type} (r : returned A) : result A :=
  match r with
  | Fulfils value => Ok value
  | Rejects e => Throw e
  end.

Section HederaExecutable.
Variables State Client Channel AccountId RequestT ResponseT OutputT : Type.

(** [Status.Busy] of the Status module, and [_getNetworkChannel] of the
    Client class, neither part of the sources at hand. *)
Variable Status_Busy : Status.
Variable _getNetworkChannel : Client → AccountId → State → result Channel * State.

Record HederaExecutable : Type := {
  _onExecute : Client → State → result unit * State;
  _makeRequest : State → result RequestT * State;
  _mapResponseStatus : ResponseT → State → result Status * State;
  _mapResponse :
    ResponseT → AccountId → RequestT → State → result (returned OutputT) * State;
  _getMethod :
    Channel → State → result (RequestT → State → result ResponseT * State) * State;
  _getNodeId : Client → State → result AccountId * State;
  _advanceRequest : State → result unit * State;
  _shouldRetry : Status → ResponseT → State → result bool * State
}.

Definition notImplemented {A : Type} : State → result A * State :=
  λ s, (Throw (Error "not implemented"), s).

(** The class as it stands, nothing overridden. *)
Definition abstractExecutable : HederaExecutable :=
  {| _onExecute := λ _, notImplemented;
     _makeRequest := notImplemented;
     _mapResponseStatus := λ _, notImplemented;
     _mapResponse := λ _ _ _, notImplemented;
     _getMethod := λ _, notImplemented;
     _getNodeId := λ _, notImplemented;
     _advanceRequest := notImplemented;
     _shouldRetry := λ responseStatus _ s,
       (Ok (code responseStatus =? code Status_Busy)%Z, s) |}.

(** Steps of [execute]: the state of the methods and the trace so far. *)
Definition step (A : Type) : Type :=
  State * list event → result A * (State * list event).

Definition call {A : Type} (method : State → result A * State) : step A :=
  λ w, let '(r, s) := method w.1 in (r, (s, w.2)).

Definition emit (ev : event) : step unit :=
  λ w, (Ok tt, (w.1, w.2 ++ [ev])).

Definition andThen {A B : Type} (m : step A) (k : A → step B) : step B :=
  λ w, match m w with
       | (Ok a, w') => k a w'
       | (Throw e, w') => (Throw e, w')
       end.

Notation "'run' x ← m ; k" := (andThen m (λ x, k))
  (at level 10, x name, m at level 100, k at level 200,
   format "'[v' 'run'  x  ←  m ;  '/' k ']'").

(** The body of the [try] block up to the judgement of the status: what was
    sent, what came back, and whether [_shouldRetry] asks for a retry. *)
Definition sendOnce (this : HederaExecutable) (client : Client)
  : step (RequestT * AccountId * ResponseT * Status * bool) :=
  run request ← call (_makeRequest this);
  run nodeId ← call (_getNodeId this client);
  run channel ← call (_getNetworkChannel client nodeId);
  run method ← call (_getMethod this channel);
  run advanced ← call (_advanceRequest this);
  run response ← call (method request);
  run responseStatus ← call (_mapResponseStatus this response);
  run retry ← call (_shouldRetry this responseStatus response);
  λ w, (Ok (request, nodeId, response, responseStatus, retry), w).

(** The body of the [try] block, for one attempt.  It ends in
    [return this._mapResponse(...)], not awaited: an exception that the call
    throws is the attempt's, while a promise that the call returns is handed
    on as it is, also when it rejects. *)
Definition attemptOnce (this : HederaExecutable) (client : Client) (attempt : nat)
  : step (returned OutputT) :=
  let delay := delayOf attempt in
  run sent ← sendOnce this client;
  let '(request, nodeId, response, responseStatus, retry) := sent in
  run waited ←
    (if retry : bool then
       run logged ← emit (ConsoleLog "Bad response status:" (inl responseStatus));
       emit (Sleep delay)
     else λ w, (Ok tt, w));
  call (_mapResponse this response nodeId request).

(** The loop, cut off after [fuel] attempts: [None] when it is still
    running then, and else how the promise of [execute] settles. *)
Fixpoint executeFrom (fuel : nat) (this : HederaExecutable) (client : Client)
  (attempt : nat) (w : State * list event)
  : option (result OutputT) * (State * list event) :=
  match fuel with
  | 0 => (None, w)
  | S fuel' =>
      match attemptOnce this client attempt w with
      | (Ok answer, w') => (Some (settled answer), w')
      | (Throw e, w') =>
          match
            (run logged ← emit (ConsoleLog "Grpc Error:" (inr e));
             emit (Sleep (delayOf attempt))) w'
          with
          | (_, w'') => executeFrom fuel' this client (S attempt) w''
          end
      end
  end.

Definition execute (fuel : nat) (this : HederaExecutable) (client : Client)
  (w : State * list event) : option (result OutputT) * (State * list event) :=
  match call (_onExecute this client) w with
  | (Throw e, w') => (Some (Throw e), w')
  | (Ok _, w') => executeFrom fuel this client 0 w'
  end.

(** Whether, in an attempt from [w], [_shouldRetry] is reached and answers
    true. *)
Definition retriedIn (this : HederaExecutable) (client : Client)
  (w : State * list event) : bool :=
  match sendOnce this client w with
  | (Ok (_, _, _, _, retry), _) => retry
  | (Throw _, _) => false
  end.

(** [Failing this client attempt retried w w']: from [w], as many attempts
    as [retried] is long, numbered from [attempt] on, all throw, and leave
    [w']; [retried] tells of each whether [_shouldRetry] had answered true
    in it. *)
Inductive Failing (this : HederaExecutable) (client : Client)
  : nat → list bool → State * list event → State * list event → Prop :=
| failing_none attempt w : Failing this client attempt [] w w
| failing_more attempt retried w e w1 w2 :
    attemptOnce this client attempt w = (Throw e, w1) →
    Failing this client (S attempt) retried
      (w1.1, w1.2 ++ [ConsoleLog "Grpc Error:" (inr e); Sleep (delayOf attempt)]) w2 →
    Failing this client attempt (retriedIn this client w :: retried) w w2.

End HederaExecutable.

Arguments _onExecute {_ _ _ _ _ _ _} _ _ _.
Arguments _makeRequest {_ _ _ _ _ _ _} _ _.
Arguments _mapResponseStatus {_ _ _ _ _ _ _} _ _ _.
Arguments _mapResponse {_ _ _ _ _ _ _} _ _ _ _ _.
Arguments _getMethod {_ _ _ _ _ _ _} _ _ _.
Arguments _getNodeId {_ _ _ _ _ _ _} _ _ _.
Arguments _advanceRequest {_ _ _ _ _ _ _} _ _.
Arguments _shouldRetry {_ _ _ _ _ _ _} _ _ _ _.
Arguments notImplemented {_ _} _.
Arguments abstractExecutable {_ _ _ _ _ _ _} _.
Arguments call {_ _} _ _.
Arguments emit {_} _ _.
Arguments andThen {_ _ _} _ _ _.
Arguments sendOnce {_ _ _ _ _ _ _} _ _ _ _.
Arguments attemptOnce {_ _ _ _ _ _ _} _ _ _ _ _.
Arguments retriedIn {_ _ _ _ _ _ _} _ _ _ _.
Arguments executeFrom {_ _ _ _ _ _ _} _ _ _ _ _ _.
Arguments execute {_ _ _ _ _ _ _} _ _ _ _ _.
Arguments Failing {_ _ _ _ _ _ _} _ _ _ _ _ _ _.
Arguments failing_none {_ _ _ _ _ _ _} _ _ _ _ _.
Arguments failing_more {_ _ _ _ _ _ _} _ _ _ _ _ _ _ _ _ _ _.

(** ** A sample implementation of the interfaces

    Simple stand-ins with the right output sizes, on which the operations
    can be run; nothing about them is cryptographic. *)

Definition sample_public (seed : bytes) : bytes :=
  take 32 (reverse seed ++ replicate 32 x00).

Definition sample_hmac (key message : bytes) : bytes :=
  take 64 (key ++ message ++ replicate 64 x00).

Definition sample_pbkdf2 (password salt : string) (iterations keylen : nat)
  (digest : HashAlgorithm) : bytes :=
  take keylen (bytes_of_string (password +:+ salt) ++ replicate keylen x00).

Definition sample_prefix : string := "302e020100300506032b657004220420".

(** The sample keystore writes the passphrase in front of the plaintext,
    each of its bytes after a [x01] marker, closed by a [x00] marker. *)
Definition sample_header (passphrase : bytes) : bytes :=
  flat_map (λ b, [x01; b]) passphrase ++ [x00].

Fixpoint sample_split (blob : bytes) : option (bytes * bytes) :=
  match blob with
  | [] => None
  | marker :: rest =>
      if Byte.eqb marker x00 then Some ([], rest)
      else if Byte.eqb marker x01 then
        match rest with
        | [] => None
        | b :: rest' =>
            match sample_split rest' with
            | Some (passphrase, data) => Some (b :: passphrase, data)
            | None => None
            end
        end
      else None
  end.

Definition sample_encode (data : bytes) (passphrase : string) : bytes :=
  sample_header (bytes_of_string passphrase) ++ data.

Definition sample_decode (blob : bytes) (passphrase : string) : result bytes :=
  match sample_split blob with
  | None => Throw KeystoreFormatError
  | Some (stored, data) =>
      if decide (string_of_list_byte stored = passphrase) then Ok data
      else Throw KeyMismatchError
  end.

(** Sample inputs. *)
Definition sample_seed : bytes := replicate 31 x00 ++ [x01].

Definition sample_text : string :=
  "0000000000000000000000000000000000000000000000000000000000000001".

Definition sample_text_upper : string :=
  "ABCDEF0123456789ABCDEF0123456789ABCDEF0123456789ABCDEF0123456789".

Definition sample_text_pair : string := sample_text +:+ sample_text_upper.

Definition sample_text_other : string :=
  "zzzzzzzzzzzzzzzzzzzzzzzzzzzzzzzzzzzzzzzzzzzzzzzzzzzzzzzzzzzzzzzz".

Definition sample_mnemonic : Mnemonic :=
  {| words := ["legal"; "winner"; "thank"; "year"] |}.

(** A store as [fromMnemonic] leaves it: the secret key in one buffer, and
    the chain code as the second half of a digest in another. *)
Definition sample_store : list bytes :=
  [sample_seed ++ sample_public sample_seed;
   sample_hmac sample_seed sample_seed].

Definition sample_object : Store.KeyObject :=
  {| Store.publicKey := {| pk_keyData := sample_public sample_seed |};
     Store.keyData := {| Store.buffer := 0; Store.byteOffset := 0; Store.byteLength := 64 |};
     Store.asStringRaw := None;
     Store.chainCode :=
       Some {| Store.buffer := 1; Store.byteOffset := 32; Store.byteLength := 32 |} |}.

(** A sample executable.  Its state counts the requests sent; the network
    refuses the first [refused] of them; the answer to a request is its
    number, with the status code [status]. *)
Definition sample_network (client : unit) (nodeId : nat) (s : nat) : result unit * nat :=
  (Ok tt, s).

Definition sample_executable (refused : nat) (status : Z)
  : HederaExecutable nat unit unit nat nat nat nat :=
  {| _onExecute := λ _ s, (Ok tt, s);
     _makeRequest := λ s, (Ok s, s);
     _mapResponseStatus := λ _ s, (Ok {| code := status |}, s);
     _mapResponse := λ response _ _ s, (Ok (Fulfils response), s);
     _getMethod := λ _ s,
       (Ok (λ request s',
              if decide (request < refused) then (Throw (Error "unavailable"), S s')
              else (Ok request, S s')), s);
     _getNodeId := λ _ s, (Ok 3, s);
     _advanceRequest := λ s, (Ok tt, s);
     _shouldRetry := λ responseStatus _ s, (Ok (code responseStatus =? 12)%Z, s) |}.

(** A second sample executable.  Every request is answered, with the status
    code 12, for which [_shouldRetry] asks for a retry; [_mapResponse]
    throws on the answers to the first [unreadable] requests and returns
    [answer] of the later ones. *)
Definition sample_busy_executable (unreadable : nat) (answer : nat → returned nat)
  : HederaExecutable nat unit unit nat nat nat nat :=
  {| _onExecute := λ _ s, (Ok tt, s);
     _makeRequest := λ s, (Ok s, s);
     _mapResponseStatus := λ _ s, (Ok {| code := 12 |}, s);
     _mapResponse := λ response _ _ s,
       if decide (response < unreadable) then (Throw (Error "unreadable"), s)
       else (Ok (answer response), s);
     _getMethod := λ _ s, (Ok (λ request s', (Ok request, S s')), s);
     _getNodeId := λ _ s, (Ok 3, s);
     _advanceRequest := λ s, (Ok tt, s);
     _shouldRetry := λ responseStatus _ s, (Ok (code responseStatus =? 12)%Z, s) |}.

(** * Properties *)

(** ** The error monad *)

Lemma bind_Ok {A B : Type} (r : result A) (k : A → result B) (b : B) :
  bind r k = Ok b → ∃ a, r = Ok a ∧ k a = Ok b.
Proof. destruct r as [a|e]; simpl; [eauto | discriminate]. Qed.

Lemma switch_32_64 {A : Type} (n : nat) (a b c : A) :
  match n with 32 => a | 64 => b | _ => c end
  = if decide (n = 32) then a else if decide (n = 64) then b else c.
Proof.
  do 65 (destruct n as [|n]; [reflexivity|]).
  repeat case_decide; first [lia | reflexivity].
Qed.

Lemma switch_64_128_96 {A : Type} (n : nat) (a b c : A) :
  match n with 64 | 128 => a | 96 => b | _ => c end
  = if decide (n = 64 ∨ n = 128) then a else if decide (n = 96) then b else c.
Proof.
  do 129 (destruct n as [|n]; [reflexivity|]).
  repeat case_decide; first [lia | reflexivity].
Qed.

(** ** The sample implementation meets the interfaces *)

Lemma sample_public_length seed : length (sample_public seed) = 32.
Proof.
  unfold sample_public.
  rewrite length_take, length_app, length_replicate. lia.
Qed.

Lemma sample_hmac_length key message : length (sample_hmac key message) = 64.
Proof.
  unfold sample_hmac.
  rewrite length_take, !length_app, length_replicate. lia.
Qed.

Lemma sample_pbkdf2_length password salt iterations keylen digest :
  length (sample_pbkdf2 password salt iterations keylen digest) = keylen.
Proof.
  unfold sample_pbkdf2.
  rewrite length_take, length_app, length_replicate. lia.
Qed.

Definition sample_primitives : Primitives := {|
  ed25519_public := sample_public;
  ed25519_public_length := sample_public_length;
  hmac_sha512 := sample_hmac;
  hmac_sha512_length := sample_hmac_length;
  pbkdf2 := sample_pbkdf2;
  pbkdf2_length := sample_pbkdf2_length;
  ed25519PrivKeyPrefix := sample_prefix;
  ed25519PrivKeyPrefix_length := eq_refl;
  decodeHex_other := λ _ _, x00
|}.

Lemma sample_split_header passphrase data :
  sample_split (sample_header passphrase ++ data) = Some (passphrase, data).
Proof.
  induction passphrase as [|b rest IH]; [reflexivity|].
  change (sample_header (b :: rest) ++ data)
    with (x01 :: b :: (sample_header rest ++ data)).
  cbn [sample_split]. rewrite IH. reflexivity.
Qed.

Lemma sample_decode_encode data passphrase :
  sample_decode (sample_encode data passphrase) passphrase = Ok data.
Proof.
  unfold sample_decode, sample_encode, bytes_of_string.
  rewrite sample_split_header, string_of_list_byte_of_string.
  case_decide; [reflexivity | contradiction].
Qed.

Lemma sample_decode_mismatch data passphrase other :
  other ≠ passphrase →
  sample_decode (sample_encode data passphrase) other = Throw KeyMismatchError.
Proof.
  intros Hne. unfold sample_decode, sample_encode, bytes_of_string.
  rewrite sample_split_header, string_of_list_byte_of_string.
  case_decide; [congruence | reflexivity].
Qed.

Definition sample_keystore : KeystoreCodec := {|
  keystore_encode := sample_encode;
  keystore_decode := sample_decode;
  keystore_decode_encode := sample_decode_encode;
  keystore_decode_mismatch := sample_decode_mismatch
|}.

(** ** The hexadecimal codec *)

Example encodeHex_sample : encodeHex [x00; x0f; xa5; xff] = "000fa5ff".
Proof. reflexivity. Qed.

Example decodeHex_sample :
  decodeHex (prims := sample_primitives) "000Fa5fF" = Ok [x00; x0f; xa5; xff].
Proof. reflexivity. Qed.

Lemma hexValue_hexDigit (n : N) : (n < 16)%N → hexValue (hexDigit n) = Some n.
Proof.
  intros Hn.
  assert (Hcases : n ∈ [0; 1; 2; 3; 4; 5; 6; 7; 8; 9; 10; 11; 12; 13; 14; 15]%N).
  { rewrite !elem_of_cons. lia. }
  rewrite !elem_of_cons, elem_of_nil in Hcases.
  repeat destruct Hcases as [->|Hcases]; try reflexivity. contradiction.
Qed.

Lemma byte_of_N_nibbles (b : byte) :
  byte_of_N (16 * (Byte.to_N b / 16) + Byte.to_N b mod 16) = b.
Proof.
  rewrite <- N.div_mod by discriminate.
  unfold byte_of_N. rewrite N.mod_small.
  - rewrite Byte.of_to_N. reflexivity.
  - pose proof (Byte.to_N_bounded b). lia.
Qed.

Lemma to_N_byte_of_N (n : N) : (n < 256)%N → Byte.to_N (byte_of_N n) = n.
Proof.
  intros Hn. unfold byte_of_N. rewrite N.mod_small by exact Hn.
  destruct (Byte.of_N n) as [b|] eqn:Hb.
  - simpl. apply Byte.to_of_N. exact Hb.
  - apply Byte.of_N_None_iff in Hb. lia.
Qed.

Lemma encodeHex_length (data : bytes) :
  String.length (encodeHex data) = 2 * length data.
Proof. induction data as [|b rest IH]; cbn [encodeHex String.length length]; lia. Qed.

Lemma hexValue_lowerChar (c : ascii) (h : N) :
  hexValue c = Some h → (h < 16)%N ∧ lowerChar c = hexDigit h.
Proof.
  destruct c as [[] [] [] [] [] [] [] []]; vm_compute; intros [= <-];
    split; reflexivity.
Qed.

Section HexProperties.
Context {prims : Primitives}.

Lemma decodePair_digits (c1 c2 : ascii) (h l : N) :
  hexValue c1 = Some h → hexValue c2 = Some l →
  decodePair c1 c2 = byte_of_N (16 * h + l).
Proof. intros H1 H2. unfold decodePair. rewrite H1, H2. reflexivity. Qed.

Lemma decodeHex_encodeHex (data : bytes) : decodeHex (encodeHex data) = Ok data.
Proof.
  induction data as [|b rest IH]; [reflexivity|].
  cbn [encodeHex decodeHex].
  pose proof (Byte.to_N_bounded b) as Hb.
  rewrite IH. cbn [bind].
  rewrite (decodePair_digits _ _ (Byte.to_N b / 16) (Byte.to_N b mod 16)).
  - rewrite byte_of_N_nibbles. reflexivity.
  - apply hexValue_hexDigit. apply N.Div0.div_lt_upper_bound. lia.
  - apply hexValue_hexDigit. apply N.mod_upper_bound. discriminate.
Qed.

(** What a successful decoding says about the text. *)
Lemma decodeHex_inv (s : string) (data : bytes) :
  decodeHex s = Ok data →
  match data with
  | [] => s = EmptyString
  | b :: rest =>
      ∃ c1 c2 s',
        s = String c1 (String c2 s') ∧ b = decodePair c1 c2 ∧
        decodeHex s' = Ok rest
  end.
Proof.
  destruct s as [|c1 [|c2 s']]; cbn [decodeHex].
  - intros [= <-]. reflexivity.
  - discriminate.
  - destruct (decodeHex s') as [rest|e] eqn:Hrest; cbn [bind]; [|discriminate].
    intros [= <-]. eauto 10.
Qed.

Lemma decodeHex_length (s : string) (data : bytes) :
  decodeHex s = Ok data → String.length s = 2 * length data.
Proof.
  revert s. induction data as [|b rest IH]; intros s Hs;
    apply decodeHex_inv in Hs.
  - subst s. reflexivity.
  - destruct Hs as (c1 & c2 & s' & -> & _ & Hrest).
    apply IH in Hrest. cbn [String.length length]. lia.
Qed.

(** Hexadecimal text that decodes is, up to letter case, the encoding of
    its bytes. *)
Lemma toLowerCase_decodeHex (s : string) (data : bytes) :
  isHex s = true → decodeHex s = Ok data → toLowerCase s = encodeHex data.
Proof.
  revert s. induction data as [|b rest IH]; intros s Hhex Hs;
    apply decodeHex_inv in Hs.
  - subst s. reflexivity.
  - destruct Hs as (c1 & c2 & s' & -> & -> & Hrest).
    cbn [isHex] in Hhex. unfold isHexDigit in Hhex.
    destruct (hexValue c1) as [h|] eqn:H1; [|discriminate].
    destruct (hexValue c2) as [l|] eqn:H2; [|discriminate].
    rewrite (decodePair_digits _ _ h l H1 H2).
    apply hexValue_lowerChar in H1 as [Hh H1].
    apply hexValue_lowerChar in H2 as [Hl H2].
    cbn [toLowerCase encodeHex]. rewrite H1, H2, (IH _ Hhex Hrest).
    rewrite to_N_byte_of_N by lia.
    replace ((16 * h + l) / 16)%N with h
      by (apply N.div_unique with l; [exact Hl | reflexivity]).
    replace ((16 * h + l) mod 16)%N with l
      by (apply N.mod_unique with h; [exact Hl | reflexivity]).
    reflexivity.
Qed.

(** Text of even length decodes, whatever its characters. *)
Lemma decodeHex_even (n : nat) (s : string) :
  String.length s = 2 * n →
  ∃ data, decodeHex s = Ok data ∧ length data = n.
Proof.
  revert s. induction n as [|n IH]; intros s Hlen.
  - destruct s; [|discriminate]. exists []. split; reflexivity.
  - destruct s as [|c1 [|c2 s']]; cbn [String.length] in Hlen; try lia.
    destruct (IH s') as (rest & Hrest & Hn); [lia|].
    exists (decodePair c1 c2 :: rest).
    cbn [decodeHex]. rewrite Hrest. cbn [bind length].
    split; [reflexivity | lia].
Qed.

(** Hexadecimal text of even length decodes. *)
Lemma decodeHex_isHex (n : nat) (s : string) :
  String.length s = 2 * n → isHex s = true →
  ∃ data, decodeHex s = Ok data ∧ length data = n.
Proof. intros Hlen _. apply decodeHex_even. exact Hlen. Qed.

End HexProperties.

Lemma isHex_encodeHex (data : bytes) : isHex (encodeHex data) = true.
Proof.
  induction data as [|b rest IH]; [reflexivity|].
  pose proof (Byte.to_N_bounded b) as Hb.
  cbn [encodeHex isHex]. unfold isHexDigit.
  rewrite !hexValue_hexDigit, IH; [reflexivity | |].
  - apply N.mod_upper_bound. discriminate.
  - apply N.Div0.div_lt_upper_bound. lia.
Qed.

(** ** Strings and slices *)

Lemma append_cons (c : ascii) (s1 s2 : string) :
  String c s1 +:+ s2 = String c (s1 +:+ s2).
Proof. reflexivity. Qed.

Lemma string_length_app (s1 s2 : string) :
  String.length (s1 +:+ s2) = String.length s1 + String.length s2.
Proof.
  induction s1 as [|c s1 IH]; [reflexivity|].
  rewrite append_cons. cbn [String.length]. rewrite IH. reflexivity.
Qed.

Lemma substring_length (s : string) (n m : nat) :
  n + m ≤ String.length s → String.length (String.substring n m s) = m.
Proof.
  revert n m. induction s as [|c s IH]; intros [|n] [|m]; cbn; intros Hle;
    try reflexivity; try lia.
  - rewrite IH; [reflexivity | lia].
  - apply IH. lia.
  - apply IH. lia.
Qed.

Lemma substring_all (s : string) : String.substring 0 (String.length s) s = s.
Proof. induction s as [|c s IH]; cbn; [reflexivity | rewrite IH; reflexivity]. Qed.

Lemma substring_prefix_app (p r : string) :
  String.substring 0 (String.length p) (p +:+ r) = p.
Proof.
  induction p as [|c p IH].
  - destruct r; reflexivity.
  - rewrite append_cons. cbn [String.length String.substring].
    rewrite IH. reflexivity.
Qed.

Lemma substring_suffix_app (p r : string) :
  String.substring (String.length p) (String.length r) (p +:+ r) = r.
Proof.
  induction p as [|c p IH]; [apply substring_all|].
  rewrite append_cons. cbn [String.length String.substring]. exact IH.
Qed.

Lemma subarray_0_32_app (a b : bytes) : length a = 32 → subarray (a ++ b) 0 32 = a.
Proof.
  intros Ha. unfold subarray. rewrite drop_0, Nat.sub_0_r, <- Ha.
  apply take_app_length.
Qed.

Lemma subarray_0_32_length (a : bytes) : 32 ≤ length a → length (subarray a 0 32) = 32.
Proof. intros Ha. unfold subarray. rewrite drop_0, length_take. lia. Qed.

Section KeyProperties.
Context {prims : Primitives} {codec : KeystoreCodec}.

Lemma startsWith_app (r : string) : startsWith (ed25519PrivKeyPrefix +:+ r) ed25519PrivKeyPrefix = true.
Proof. unfold startsWith. rewrite substring_prefix_app. apply String.eqb_refl. Qed.

Lemma string_slice_app (r : string) : string_slice (ed25519PrivKeyPrefix +:+ r) 32 = r.
Proof.
  unfold string_slice. rewrite string_length_app, ed25519PrivKeyPrefix_length.
  replace (32 + String.length r - 32) with (String.length r) by lia.
  rewrite <- ed25519PrivKeyPrefix_length at 1. apply substring_suffix_app.
Qed.

(** ** Construction from bytes *)

Lemma fromBytes_seed (data : bytes) :
  length data = 32 → fromBytes data = Ok (seedKey data).
Proof.
  intros Hlen. unfold fromBytes. rewrite switch_32_64.
  rewrite decide_True by exact Hlen.
  unfold nacl_sign_keyPair_fromSeed. rewrite decide_True by exact Hlen.
  cbn [bind]. unfold new_Ed25519PrivateKey, nacl_sign_secretKeyLength.
  cbn [privateKey publicKey].
  rewrite decide_False by (rewrite length_app, ed25519_public_length; lia).
  unfold Ed25519PublicKey_fromBytes.
  rewrite decide_True by apply ed25519_public_length. reflexivity.
Qed.

Lemma fromBytes_pair (data : bytes) :
  length data = 64 → fromBytes data = Ok (pairKey data).
Proof.
  intros Hlen. unfold fromBytes. rewrite switch_32_64.
  rewrite decide_False by lia. rewrite decide_True by exact Hlen.
  unfold nacl_sign_keyPair_fromSecretKey. rewrite decide_True by exact Hlen.
  cbn [bind]. unfold new_Ed25519PrivateKey, nacl_sign_secretKeyLength.
  cbn [privateKey publicKey].
  rewrite decide_False by lia.
  unfold Ed25519PublicKey_fromBytes.
  rewrite decide_True by (rewrite length_drop; lia). reflexivity.
Qed.

Lemma fromBytes_other (data : bytes) :
  length data ≠ 32 → length data ≠ 64 → fromBytes data = Throw BadKeyError.
Proof.
  intros H32 H64. unfold fromBytes. rewrite switch_32_64.
  rewrite !decide_False by assumption. reflexivity.
Qed.

Lemma fromBytes_Ok_inv (data : bytes) (k : Ed25519PrivateKey) :
  fromBytes data = Ok k →
  length data = 32 ∧ k = seedKey data ∨ length data = 64 ∧ k = pairKey data.
Proof.
  intros Hk.
  destruct (decide (length data = 32)) as [H32|H32].
  { rewrite fromBytes_seed in Hk by exact H32. left. split; congruence. }
  destruct (decide (length data = 64)) as [H64|H64].
  { rewrite fromBytes_pair in Hk by exact H64. right. split; congruence. }
  rewrite fromBytes_other in Hk by assumption. discriminate.
Qed.

Lemma toBytes_seedKey (seed : bytes) : length seed = 32 → toBytes (seedKey seed) = seed.
Proof. intros Hlen. apply subarray_0_32_app. exact Hlen. Qed.

Lemma toBytes_pairKey (data : bytes) : toBytes (pairKey data) = take 32 data.
Proof. reflexivity. Qed.

Lemma toBytes_length (k : Ed25519PrivateKey) :
  length (_keyData k) = 64 → length (toBytes k) = 32.
Proof. intros Hk. apply subarray_0_32_length. lia. Qed.

Lemma set_asStringRaw_toBytes (k : Ed25519PrivateKey) (s : string) :
  toBytes (set_asStringRaw k s) = toBytes k.
Proof. reflexivity. Qed.

(** ** The derivation step *)

Lemma deriveChildKey_lengths (parentKey chainCode : bytes) (index : Z) :
  length (deriveChildKey parentKey chainCode index).1 = 32 ∧
  length (deriveChildKey parentKey chainCode index).2 = 32.
Proof.
  unfold deriveChildKey. cbn [fst snd]. split.
  - apply subarray_0_32_length. rewrite hmac_sha512_length. lia.
  - rewrite length_drop, hmac_sha512_length. reflexivity.
Qed.

Lemma derive_None (k : Ed25519PrivateKey) (index : Z) :
  _chainCode k = None →
  derive k index
  = Throw (Error "this Ed25519 private key does not support key derivation").
Proof. intros Hc. unfold derive. rewrite Hc. reflexivity. Qed.

Lemma derive_Some (k : Ed25519PrivateKey) (c : bytes) (index : Z) :
  _chainCode k = Some c →
  derive k index
  = Ok (set_chainCode
          (seedKey (deriveChildKey (subarray (_keyData k) 0 32) c index).1)
          (deriveChildKey (subarray (_keyData k) 0 32) c index).2).
Proof.
  intros Hc. unfold derive. rewrite Hc.
  pose proof (deriveChildKey_lengths (subarray (_keyData k) 0 32) c index) as [Hk _].
  destruct (deriveChildKey (subarray (_keyData k) 0 32) c index) as [keyBytes chainCode].
  cbn [fst snd] in *. rewrite fromBytes_seed by exact Hk. reflexivity.
Qed.

(** ** The mnemonic pipeline *)

Lemma fromMnemonic_unfold (mnemonic : Mnemonic) (passphrase : string) :
  fromMnemonic mnemonic passphrase
  = Ok (set_chainCode (seedKey (fromMnemonic_steps mnemonic passphrase).1)
          (fromMnemonic_steps mnemonic passphrase).2).
Proof.
  unfold fromMnemonic, fromMnemonic_steps, derivationPath, subarray.
  cbn [fold_left fst snd]. rewrite drop_0, Nat.sub_0_r.
  set (digest := hmac_sha512 _ _).
  destruct (deriveChildKey (take 32 digest) (drop 32 digest) 44) as [key1 chain1].
  cbn [fst snd].
  destruct (deriveChildKey key1 chain1 3030) as [key2 chain2]. cbn [fst snd].
  destruct (deriveChildKey key2 chain2 0) as [key3 chain3]. cbn [fst snd].
  pose proof (deriveChildKey_lengths key3 chain3 0) as [Hk _].
  destruct (deriveChildKey key3 chain3 0) as [key4 chain4]. cbn [fst snd] in *.
  rewrite fromBytes_seed by exact Hk. reflexivity.
Qed.

Lemma fromMnemonic_steps_lengths (mnemonic : Mnemonic) (passphrase : string) :
  length (fromMnemonic_steps mnemonic passphrase).1 = 32 ∧
  length (fromMnemonic_steps mnemonic passphrase).2 = 32.
Proof.
  unfold fromMnemonic_steps.
  set (digest := hmac_sha512 _ _).
  destruct (deriveChildKey (take 32 digest) (drop 32 digest) 44) as [key1 chain1].
  destruct (deriveChildKey key1 chain1 3030) as [key2 chain2].
  destruct (deriveChildKey key2 chain2 0) as [key3 chain3].
  apply deriveChildKey_lengths.
Qed.

(** ** Construction from text *)

Lemma fromString_eq (keyStr : string) :
  fromString keyStr =
  if decide (String.length keyStr = 64 ∨ String.length keyStr = 128) then
    try data ← decodeHex keyStr;
    try newKey ← fromBytes data;
    Ok (set_asStringRaw newKey keyStr)
  else if decide (String.length keyStr = 96) then
    if startsWith keyStr ed25519PrivKeyPrefix then
      try data ← decodeHex (string_slice keyStr 32);
      try newKey ← fromBytes data;
      Ok (set_asStringRaw newKey (string_slice keyStr 32))
    else Throw BadKeyError
  else Throw BadKeyError.
Proof. unfold fromString. apply switch_64_128_96. Qed.

Lemma fromString_Ok_inv (keyStr : string) (k : Ed25519PrivateKey) :
  fromString keyStr = Ok k →
  ∃ body data k0,
    decodeHex body = Ok data ∧ fromBytes data = Ok k0 ∧
    k = set_asStringRaw k0 body ∧
    ((String.length keyStr = 64 ∨ String.length keyStr = 128) ∧ body = keyStr ∨
     String.length keyStr = 96 ∧ startsWith keyStr ed25519PrivKeyPrefix = true ∧
     body = string_slice keyStr 32).
Proof.
  rewrite fromString_eq. intros Hk.
  destruct (decide (String.length keyStr = 64 ∨ String.length keyStr = 128)) as [Hlen|Hlen].
  - apply bind_Ok in Hk as (data & Hdata & Hk).
    apply bind_Ok in Hk as (k0 & Hk0 & [= <-]).
    exists keyStr, data, k0. repeat split; auto.
  - destruct (decide (String.length keyStr = 96)) as [H96|H96]; [|discriminate].
    destruct (startsWith keyStr ed25519PrivKeyPrefix) eqn:Hprefix; [|discriminate].
    apply bind_Ok in Hk as (data & Hdata & Hk).
    apply bind_Ok in Hk as (k0 & Hk0 & [= <-]).
    exists (string_slice keyStr 32), data, k0. repeat split; auto.
Qed.

Lemma fromKeystore_Ok_inv (keystore : bytes) (passphrase : string)
  (k : Ed25519PrivateKey) :
  fromKeystore keystore passphrase = Ok k →
  ∃ data, keystore_decode keystore passphrase = Ok data ∧
          length data = 64 ∧ k = pairKey data.
Proof.
  unfold fromKeystore, loadKeystore. intros Hk.
  apply bind_Ok in Hk as (pair & Hpair & Hk).
  apply bind_Ok in Hpair as (data & Hdata & Hpair).
  unfold nacl_sign_keyPair_fromSecretKey in Hpair.
  destruct (decide (length data = 64)) as [Hlen|Hlen]; [|discriminate].
  injection Hpair as <-. exists data. split; [exact Hdata|]. split; [exact Hlen|].
  pose proof (fromBytes_pair data Hlen) as Hpairkey.
  unfold fromBytes in Hpairkey. rewrite switch_32_64 in Hpairkey.
  rewrite decide_False, decide_True in Hpairkey by lia.
  unfold nacl_sign_keyPair_fromSecretKey in Hpairkey.
  rewrite decide_True in Hpairkey by exact Hlen. cbn [bind] in Hpairkey.
  congruence.
Qed.

(** ** What every key satisfies *)

Lemma invariant_seedKey (o : origin) (seed : bytes) :
  length seed = 32 → derivable o = false → invariant o (seedKey seed).
Proof.
  intros Hlen Ho. unfold invariant, cached. cbn.
  rewrite length_app, ed25519_public_length, Hlen.
  repeat split; [|exact Ho].
  rewrite <- Hlen. symmetry. apply drop_app_length.
Qed.

Lemma invariant_pairKey (o : origin) (data : bytes) :
  length data = 64 → derivable o = false → invariant o (pairKey data).
Proof. intros Hlen Ho. unfold invariant, cached. cbn. auto. Qed.

Lemma invariant_fromBytes (o : origin) (data : bytes) (k : Ed25519PrivateKey) :
  fromBytes data = Ok k → derivable o = false → invariant o k.
Proof.
  intros Hk Ho. apply fromBytes_Ok_inv in Hk as [[Hlen ->]|[Hlen ->]].
  - apply invariant_seedKey; assumption.
  - apply invariant_pairKey; assumption.
Qed.

Lemma invariant_set_chainCode (o : origin) (seed c : bytes) :
  length seed = 32 → length c = 32 → derivable o = true →
  invariant o (set_chainCode (seedKey seed) c).
Proof.
  intros Hlen Hc Ho.
  destruct (invariant_seedKey ByBytes seed Hlen eq_refl) as (H1 & H2 & _ & _).
  unfold invariant, cached. cbn. cbn in H1, H2. auto.
Qed.

Lemma invariant_toString (o : origin) (k : Ed25519PrivateKey) (raw : bool) :
  invariant o k → invariant o (toString k raw).2.
Proof.
  intros (Hlen & Hpk & Hchain & Hcache).
  unfold invariant, cached, toString in *. cbn.
  repeat split; try assumption.
  destruct (_asStringRaw k) as [s|]; [exact Hcache | left; reflexivity].
Qed.

Lemma invariant_fromString (keyStr : string) (k : Ed25519PrivateKey) :
  fromString keyStr = Ok k → invariant (ByString (String.length keyStr)) k.
Proof.
  intros Hk.
  apply fromString_Ok_inv in Hk as (body & data & k0 & Hdata & Hk0 & -> & Hbody).
  assert (Hbytes : toBytes k0 = take 32 data).
  { apply fromBytes_Ok_inv in Hk0 as [[Hlen ->]|[Hlen ->]].
    - rewrite toBytes_seedKey by exact Hlen. symmetry. apply take_ge. lia.
    - reflexivity. }
  destruct (invariant_fromBytes (ByString (String.length keyStr)) _ _ Hk0 eq_refl)
    as (Hlen & Hpk & Hchain & _).
  unfold invariant, cached. cbn.
  repeat split; try assumption.
  right. exists (String.length keyStr), data.
  repeat split; try assumption.
  destruct Hbody as [[[H64|H128] ->]|(H96 & _ & ->)].
  - right. lia.
  - left. lia.
  - right. split; [lia|].
    unfold string_slice. rewrite substring_length; lia.
Qed.

Lemma Built_invariant (o : origin) (k : Ed25519PrivateKey) :
  Built o k → invariant o k.
Proof.
  induction 1 as [data k Hk | keyStr k Hk | mnemonic passphrase k Hk
                 | keystore passphrase k Hk | source k Hk
                 | o parent index k Hparent IH Hk | o k raw Hk IH].
  - eapply invariant_fromBytes; [exact Hk | reflexivity].
  - apply invariant_fromString. exact Hk.
  - rewrite fromMnemonic_unfold in Hk. injection Hk as <-.
    destruct (fromMnemonic_steps_lengths mnemonic passphrase).
    apply invariant_set_chainCode; auto.
  - apply fromKeystore_Ok_inv in Hk as (data & _ & Hlen & ->).
    apply invariant_pairKey; auto.
  - unfold generate in Hk. eapply invariant_fromBytes; [exact Hk | reflexivity].
  - destruct (_chainCode parent) as [c|] eqn:Hc.
    + rewrite (derive_Some _ _ _ Hc) in Hk. injection Hk as <-.
      destruct (deriveChildKey_lengths (subarray (_keyData parent) 0 32) c index).
      apply invariant_set_chainCode; auto.
    + rewrite (derive_None _ _ Hc) in Hk. discriminate.
  - apply invariant_toString. exact IH.
Qed.

Lemma Built_ByString_length (n : nat) (k : Ed25519PrivateKey) :
  Built (ByString n) k → n = 64 ∨ n = 96 ∨ n = 128.
Proof.
  intros Hk. remember (ByString n) as o eqn:Ho.
  induction Hk as [| keyStr k Hk | | | | |o k raw Hk IH]; try discriminate.
  - injection Ho as Hn.
    apply fromString_Ok_inv in Hk as (body & data & k0 & _ & _ & _ & Hlen). lia.
  - apply IH. exact Ho.
Qed.

Lemma keyData_shape (o : origin) (k : Ed25519PrivateKey) :
  Built o k →
  length (_keyData k) = 64 ∧ length (toBytes k) = 32 ∧
  _keyData k = toBytes k ++ pk_keyData (key_publicKey k).
Proof.
  intros Hk. pose proof (Built_invariant o k Hk) as (Hlen & Hpk & _ & _).
  split; [exact Hlen|]. split; [apply toBytes_length; exact Hlen|].
  rewrite Hpk. unfold toBytes, slice. rewrite drop_0, Nat.sub_0_r.
  symmetry. apply take_drop.
Qed.

Lemma fromString_hex_64 (keyStr : string) :
  String.length keyStr = 64 → isHex keyStr = true →
  ∃ data, decodeHex keyStr = Ok data ∧ length data = 32 ∧
          fromString keyStr = Ok (set_asStringRaw (seedKey data) keyStr).
Proof.
  intros H64 Hhex. rewrite fromString_eq. rewrite decide_True by auto.
  destruct (decodeHex_isHex 32 keyStr H64 Hhex) as (data & Hdata & Hlen).
  exists data. rewrite Hdata. cbn [bind].
  rewrite fromBytes_seed by exact Hlen. auto.
Qed.

Lemma fromString_hex_128 (keyStr : string) :
  String.length keyStr = 128 → isHex keyStr = true →
  ∃ data, decodeHex keyStr = Ok data ∧ length data = 64 ∧
          fromString keyStr = Ok (set_asStringRaw (pairKey data) keyStr).
Proof.
  intros H128 Hhex. rewrite fromString_eq. rewrite decide_True by auto.
  destruct (decodeHex_isHex 64 keyStr H128 Hhex) as (data & Hdata & Hlen).
  exists data. rewrite Hdata. cbn [bind].
  rewrite fromBytes_pair by exact Hlen. auto.
Qed.

Lemma fromString_hex_96 (keyStr : string) :
  String.length keyStr = 96 → startsWith keyStr ed25519PrivKeyPrefix = true →
  isHex (string_slice keyStr 32) = true →
  ∃ data, decodeHex (string_slice keyStr 32) = Ok data ∧ length data = 32 ∧
          fromString keyStr
          = Ok (set_asStringRaw (seedKey data) (string_slice keyStr 32)).
Proof.
  intros H96 Hprefix Hhex. rewrite fromString_eq. rewrite decide_False by lia.
  rewrite decide_True by exact H96. rewrite Hprefix.
  assert (Hbody : String.length (string_slice keyStr 32) = 2 * 32).
  { unfold string_slice. rewrite substring_length; lia. }
  destruct (decodeHex_isHex 32 _ Hbody Hhex) as (data & Hdata & Hlen).
  exists data. rewrite Hdata. cbn [bind].
  rewrite fromBytes_seed by exact Hlen. auto.
Qed.

(** ** The mnemonic pipeline *)

(** C1: [fromMnemonic] renders the mnemonic, stretches the phrase with
    PBKDF2 (salt "mnemonic" followed by the passphrase, 2048 iterations,
    SHA-512) into a seed of 64 bytes, keys HMAC-SHA512 with "ed25519 seed"
    over that seed, splits the digest into a 32-byte key and a 32-byte chain
    code, and applies the derivation step at 44, 3030, 0 and 0 in turn; the
    key it returns is built from the final 32 bytes and carries the final
    chain code. *)
Theorem fromMnemonic_pipeline (mnemonic : Mnemonic) (passphrase : string) :
  let seed :=
    pbkdf2 (Mnemonic_toString mnemonic) ("mnemonic" +:+ passphrase) 2048 64 sha512 in
  let digest := hmac_sha512 (bytes_of_string "ed25519 seed") seed in
  let final := fromMnemonic_steps mnemonic passphrase in
  length seed = 64 ∧
  length (take 32 digest) = 32 ∧ length (drop 32 digest) = 32 ∧
  length final.1 = 32 ∧ length final.2 = 32 ∧
  ∃ key,
    fromMnemonic mnemonic passphrase = Ok key ∧
    key = set_chainCode (seedKey final.1) final.2 ∧
    toBytes key = final.1 ∧
    _chainCode key = Some final.2 ∧
    supportsDerivation key = true.
Proof.
  intros seed digest final.
  destruct (fromMnemonic_steps_lengths mnemonic passphrase) as [Hkey Hchain].
  split; [apply pbkdf2_length|].
  split; [rewrite length_take; subst digest; rewrite hmac_sha512_length; lia|].
  split; [rewrite length_drop; subst digest; rewrite hmac_sha512_length; lia|].
  split; [exact Hkey|]. split; [exact Hchain|].
  exists (set_chainCode (seedKey final.1) final.2).
  split; [apply fromMnemonic_unfold|]. split; [reflexivity|].
  split; [|split; reflexivity].
  apply (toBytes_seedKey final.1 Hkey).
Qed.

(** ** Derivability *)

(** C2: a key carries a chain code exactly when it comes from
    [fromMnemonic] or from [derive]; keys from [fromBytes], [fromString],
    [generate] and [fromKeystore] carry none.  [derive] on a key without a
    chain code throws the error that says derivation is not supported, and
    on a key with one it returns a new key that carries a chain code again. *)
Theorem chainCode_iff_derivable (o : origin) (k : Ed25519PrivateKey) :
  Built o k →
  (is_Some (_chainCode k) ↔ o = ByMnemonic ∨ o = ByDerive) ∧
  (supportsDerivation k = true ↔ is_Some (_chainCode k)) ∧
  (∀ index,
     _chainCode k = None →
     derive k index
     = Throw (Error "this Ed25519 private key does not support key derivation")) ∧
  (∀ index,
     is_Some (_chainCode k) →
     ∃ child,
       derive k index = Ok child ∧ Built ByDerive child ∧
       is_Some (_chainCode child) ∧ supportsDerivation child = true).
Proof.
  intros Hk. pose proof (Built_invariant o k Hk) as (_ & _ & Hchain & _).
  split; [|split; [|split]].
  - destruct (_chainCode k) as [c|].
    + destruct Hchain as [Ho _]. split; [intros _|intros _; eauto].
      destruct o; try discriminate; auto.
    + split; [intros [c Hc]; discriminate|].
      intros [->| ->]; discriminate.
  - unfold supportsDerivation. destruct (_chainCode k) as [c|].
    + split; eauto.
    + split; [discriminate | intros [c Hc]; discriminate].
  - intros index Hnone. apply derive_None. exact Hnone.
  - intros index [c Hc]. eexists. split; [apply derive_Some; exact Hc|].
    split; [|split; [eexists|]; reflexivity].
    eapply built_derive; [exact Hk | apply derive_Some; exact Hc].
Qed.

(** ** Construction from bytes *)

(** C5: [fromBytes] succeeds exactly on 32 bytes, a seed whose public key
    is computed, and on 64 bytes, a seed followed by a public key that is
    taken as given; on any other length it throws [BadKeyError].  What it
    returns is a complete key. *)
Theorem fromBytes_accepts_exactly_32_or_64 (data : bytes) :
  (length data = 32 → fromBytes data = Ok (seedKey data)) ∧
  (length data = 64 → fromBytes data = Ok (pairKey data)) ∧
  (length data ≠ 32 → length data ≠ 64 → fromBytes data = Throw BadKeyError) ∧
  (succeeds (fromBytes data) ↔ length data = 32 ∨ length data = 64).
Proof.
  split; [apply fromBytes_seed|]. split; [apply fromBytes_pair|].
  split; [apply fromBytes_other|]. split.
  - intros [k Hk]. apply fromBytes_Ok_inv in Hk as [[Hlen _]|[Hlen _]]; auto.
  - intros [Hlen|Hlen]; eexists;
      [apply fromBytes_seed | apply fromBytes_pair]; exact Hlen.
Qed.

(** ** Construction from text *)

Lemma fromString_64 (keyStr : string) :
  String.length keyStr = 64 →
  ∃ data, decodeHex keyStr = Ok data ∧ length data = 32 ∧
          fromString keyStr = Ok (set_asStringRaw (seedKey data) keyStr).
Proof.
  intros H64. rewrite fromString_eq. rewrite decide_True by auto.
  destruct (decodeHex_even 32 keyStr H64) as (data & Hdata & Hlen).
  exists data. rewrite Hdata. cbn [bind].
  rewrite fromBytes_seed by exact Hlen. auto.
Qed.

Lemma fromString_128 (keyStr : string) :
  String.length keyStr = 128 →
  ∃ data, decodeHex keyStr = Ok data ∧ length data = 64 ∧
          fromString keyStr = Ok (set_asStringRaw (pairKey data) keyStr).
Proof.
  intros H128. rewrite fromString_eq. rewrite decide_True by auto.
  destruct (decodeHex_even 64 keyStr H128) as (data & Hdata & Hlen).
  exists data. rewrite Hdata. cbn [bind].
  rewrite fromBytes_pair by exact Hlen. auto.
Qed.

Lemma fromString_96 (keyStr : string) :
  String.length keyStr = 96 → startsWith keyStr ed25519PrivKeyPrefix = true →
  ∃ data, decodeHex (string_slice keyStr 32) = Ok data ∧ length data = 32 ∧
          fromString keyStr
          = Ok (set_asStringRaw (seedKey data) (string_slice keyStr 32)).
Proof.
  intros H96 Hprefix. rewrite fromString_eq. rewrite decide_False by lia.
  rewrite decide_True by exact H96. rewrite Hprefix.
  assert (Hbody : String.length (string_slice keyStr 32) = 2 * 32).
  { unfold string_slice. rewrite substring_length; lia. }
  destruct (decodeHex_even 32 _ Hbody) as (data & Hdata & Hlen).
  exists data. rewrite Hdata. cbn [bind].
  rewrite fromBytes_seed by exact Hlen. auto.
Qed.

(** C6, amended: [fromString] looks at the length of the text and at the
    prefix, not at the characters: it succeeds exactly on text of 64 or 128
    characters and on text of 96 characters that starts with the algorithm
    prefix, which is cut off before the remaining 64 characters are decoded;
    the hexadecimal encoding of 32 bytes is read as the key of these bytes;
    text of any other length, and text of 96 characters without the prefix,
    makes it throw [BadKeyError]. *)
Theorem fromString_accepts_exactly (keyStr : string) :
  (String.length keyStr ≠ 64 → String.length keyStr ≠ 96 →
   String.length keyStr ≠ 128 → fromString keyStr = Throw BadKeyError) ∧
  (String.length keyStr = 96 → startsWith keyStr ed25519PrivKeyPrefix = false →
   fromString keyStr = Throw BadKeyError) ∧
  (String.length keyStr = 64 →
   ∃ data, decodeHex keyStr = Ok data ∧ length data = 32 ∧
           fromString keyStr = Ok (set_asStringRaw (seedKey data) keyStr)) ∧
  (String.length keyStr = 128 →
   ∃ data, decodeHex keyStr = Ok data ∧ length data = 64 ∧
           fromString keyStr = Ok (set_asStringRaw (pairKey data) keyStr)) ∧
  (String.length keyStr = 96 → startsWith keyStr ed25519PrivKeyPrefix = true →
   ∃ data, decodeHex (string_slice keyStr 32) = Ok data ∧ length data = 32 ∧
           fromString keyStr
           = Ok (set_asStringRaw (seedKey data) (string_slice keyStr 32))) ∧
  (∀ seed, keyStr = encodeHex seed → length seed = 32 →
           fromString keyStr = Ok (set_asStringRaw (seedKey seed) keyStr)) ∧
  (succeeds (fromString keyStr) ↔
   String.length keyStr = 64 ∨ String.length keyStr = 128 ∨
   String.length keyStr = 96 ∧ startsWith keyStr ed25519PrivKeyPrefix = true).
Proof.
  split; [|split; [|split; [|split; [|split; [|split; [|split]]]]]].
  - intros H64 H96 H128. rewrite fromString_eq, !decide_False by lia. reflexivity.
  - intros H96 Hprefix. rewrite fromString_eq, decide_False by lia.
    rewrite decide_True by exact H96. rewrite Hprefix. reflexivity.
  - apply fromString_64.
  - apply fromString_128.
  - apply fromString_96.
  - intros seed -> Hseed. rewrite fromString_eq.
    rewrite decide_True by (rewrite encodeHex_length; lia).
    rewrite decodeHex_encodeHex. cbn [bind].
    rewrite fromBytes_seed by exact Hseed. reflexivity.
  - intros [k Hk]. rewrite fromString_eq in Hk.
    destruct (decide (String.length keyStr = 64 ∨ String.length keyStr = 128))
      as [Hlen|Hlen]; [tauto|].
    destruct (decide (String.length keyStr = 96)) as [H96|H96]; [|discriminate].
    destruct (startsWith keyStr ed25519PrivKeyPrefix); [auto | discriminate].
  - intros [H64|[H128|[H96 Hprefix]]].
    + destruct (fromString_64 keyStr H64) as (data & _ & _ & Hk). eexists. exact Hk.
    + destruct (fromString_128 keyStr H128) as (data & _ & _ & Hk). eexists. exact Hk.
    + destruct (fromString_96 keyStr H96 Hprefix) as (data & _ & _ & Hk).
      eexists. exact Hk.
Qed.

(** ** The internal representation *)

(** C9: every key, however it was built, holds 64 bytes, the seed followed
    by the bytes of its public key; the constructor throws [BadKeyError] on
    any other length; and [toBytes], [toString] and [derive] depend on the
    first 32 of these bytes only. *)
Theorem keyData_is_seed_then_public (o : origin) (k : Ed25519PrivateKey) :
  (Built o k →
   length (_keyData k) = 64 ∧ length (toBytes k) = 32 ∧
   _keyData k = toBytes k ++ pk_keyData (key_publicKey k)) ∧
  (∀ pair,
     length (privateKey pair) ≠ 64 → new_Ed25519PrivateKey pair = Throw BadKeyError) ∧
  (∀ data raw index,
     take 32 data = take 32 (_keyData k) →
     toBytes (with_keyData k data) = toBytes k ∧
     (toString (with_keyData k data) raw).1 = (toString k raw).1 ∧
     derive (with_keyData k data) index = derive k index).
Proof.
  split; [|split].
  - apply keyData_shape.
  - intros pair Hlen. unfold new_Ed25519PrivateKey, nacl_sign_secretKeyLength.
    rewrite decide_True by exact Hlen. reflexivity.
  - intros data raw index Hdata.
    unfold toBytes, toString, derive, slice, subarray. cbn.
    rewrite !drop_0, Hdata. auto.
Qed.

(** ** The two forms of [toString] *)

(** C10: in every state of a key, [toString(false)] is the algorithm prefix
    followed by [toString(true)], and a call with one flag leaves the result
    of a later call with the other flag as it was. *)
Theorem toString_prefix_relation (k : Ed25519PrivateKey) (first second : bool) :
  (toString k false).1 = ed25519PrivKeyPrefix +:+ (toString k true).1 ∧
  (toString (toString k first).2 second).1 = (toString k second).1.
Proof.
  unfold toString. cbn. split; [reflexivity|].
  destruct (_asStringRaw k); reflexivity.
Qed.

(** ** The text form *)

(** The text behind [toString], for every key but one read from 128
    characters: 64 characters that decode to the seed. *)
Lemma toString_body (o : origin) (k : Ed25519PrivateKey) :
  Built o k → o ≠ ByString 128 →
  ∃ body,
    (∀ raw, toString k raw
            = ((if raw then EmptyString else ed25519PrivKeyPrefix) +:+ body,
               set_asStringRaw k body)) ∧
    String.length body = 64 ∧
    decodeHex body = Ok (toBytes k) ∧
    ((∀ n, o ≠ ByString n) → body = encodeHex (toBytes k)).
Proof.
  intros Hk Ho. pose proof (Built_invariant o k Hk) as (Hlen & _ & _ & Hcache).
  pose proof (toBytes_length k Hlen) as Hseed.
  unfold cached in Hcache. unfold toString.
  destruct (_asStringRaw k) as [s|] eqn:Hs.
  - exists s. split; [reflexivity|].
    destruct Hcache as [->|(n & data & -> & Hdata & Hbytes & Hn)].
    + rewrite encodeHex_length, Hseed, decodeHex_encodeHex. auto.
    + destruct Hn as [[-> _]|[_ Hn]]; [contradiction|].
      pose proof (decodeHex_length _ _ Hdata) as Hd.
      rewrite Hbytes, take_ge by lia.
      split; [exact Hn|]. split; [exact Hdata|].
      intros Hnot. destruct (Hnot n). reflexivity.
  - exists (encodeHex (toBytes k)). split; [reflexivity|].
    rewrite encodeHex_length, Hseed, decodeHex_encodeHex. auto.
Qed.

Lemma fromString_prefixed (body : string) (seed : bytes) :
  String.length body = 64 → decodeHex body = Ok seed →
  fromString (ed25519PrivKeyPrefix +:+ body) = Ok (set_asStringRaw (seedKey seed) body).
Proof.
  intros Hlen Hseed. rewrite fromString_eq.
  rewrite string_length_app, ed25519PrivKeyPrefix_length, Hlen.
  rewrite decide_False by lia. rewrite decide_True by reflexivity.
  rewrite startsWith_app, string_slice_app, Hseed. cbn [bind].
  apply decodeHex_length in Hseed.
  rewrite fromBytes_seed by lia. reflexivity.
Qed.

(** The round trip through bytes holds for every key. *)
Lemma fromBytes_toBytes (o : origin) (k : Ed25519PrivateKey) :
  Built o k →
  ∃ k', fromBytes (toBytes k) = Ok k' ∧ toBytes k' = toBytes k.
Proof.
  intros Hk. pose proof (Built_invariant o k Hk) as (Hlen & _).
  pose proof (toBytes_length k Hlen) as Hseed.
  exists (seedKey (toBytes k)).
  split; [apply fromBytes_seed | apply toBytes_seedKey]; exact Hseed.
Qed.

(** The round trip through text holds for every key but one read from 128
    characters. *)
Lemma fromString_toString (o : origin) (k : Ed25519PrivateKey) :
  Built o k → o ≠ ByString 128 →
  ∃ k', fromString (toString k false).1 = Ok k' ∧ toBytes k' = toBytes k.
Proof.
  intros Hk Ho. pose proof (Built_invariant o k Hk) as (Hlen & _).
  destruct (toString_body o k Hk Ho) as (body & -> & Hbody & Hdecode & _).
  cbn [fst]. rewrite (fromString_prefixed body (toBytes k) Hbody Hdecode).
  eexists. split; [reflexivity|].
  rewrite set_asStringRaw_toBytes. apply toBytes_seedKey.
  apply toBytes_length. exact Hlen.
Qed.

(** C3: the round trip through text, [fromString(k.toString())], is to give
    back the bytes of [k] for every key; for a key read from 128 characters
    of hexadecimal text it does not: [toString] returns the prefix followed
    by all 128 characters, 160 characters that [fromString] rejects. *)
Theorem fromString_toString_128 (keyStr : string) :
  String.length keyStr = 128 → isHex keyStr = true →
  ∃ k,
    fromString keyStr = Ok k ∧
    Built (ByString 128) k ∧
    (toString k false).1 = ed25519PrivKeyPrefix +:+ keyStr ∧
    String.length (toString k false).1 = 160 ∧
    fromString (toString k false).1 = Throw BadKeyError.
Proof.
  intros Hlen Hhex.
  destruct (fromString_hex_128 keyStr Hlen Hhex) as (data & _ & _ & Hk).
  exists (set_asStringRaw (pairKey data) keyStr).
  split; [exact Hk|]. split; [rewrite <- Hlen; apply built_fromString; exact Hk|].
  assert (Hout : String.length (ed25519PrivKeyPrefix +:+ keyStr) = 160)
    by (rewrite string_length_app, ed25519PrivKeyPrefix_length, Hlen; reflexivity).
  unfold toString. cbn.
  split; [reflexivity|]. split; [exact Hout|].
  rewrite fromString_eq, Hout. reflexivity.
Qed.

(** C4, amended: for every key but one read from 128 characters,
    [toString(true)] is 64 characters whose decoding is the seed.  For a
    key not read from text they are the lowercase hexadecimal encoding of
    the seed; for a key read from 64 or 96 characters they are the text the
    caller gave (without the prefix), as it was given: when that text is
    hexadecimal it is, up to the case of the letters, the lowercase encoding
    of the seed.  The string is kept in the cache, and [toString(false)] is
    the same string after the algorithm prefix. *)
Theorem toString_raw_is_seed_text (o : origin) (k : Ed25519PrivateKey) :
  Built o k → o ≠ ByString 128 →
  String.length (toString k true).1 = 64 ∧
  decodeHex (toString k true).1 = Ok (toBytes k) ∧
  (isHex (toString k true).1 = true →
   toLowerCase (toString k true).1 = encodeHex (toBytes k)) ∧
  ((∀ n, o ≠ ByString n) → (toString k true).1 = encodeHex (toBytes k)) ∧
  (∀ keyStr, fromString keyStr = Ok k →
     (toString k true).1
     = if decide (String.length keyStr = 96) then string_slice keyStr 32
       else keyStr) ∧
  (∀ raw, _asStringRaw (toString k raw).2 = Some (toString k true).1) ∧
  (toString k false).1 = ed25519PrivKeyPrefix +:+ (toString k true).1.
Proof.
  intros Hk Ho.
  destruct (toString_body o k Hk Ho) as (body & Hstr & Hbody & Hdecode & Hfresh).
  assert (Htrue : (toString k true).1 = body) by (rewrite Hstr; reflexivity).
  assert (Hfalse : (toString k false).1 = ed25519PrivKeyPrefix +:+ body)
    by (rewrite Hstr; reflexivity).
  rewrite Htrue, Hfalse.
  split; [exact Hbody|]. split; [exact Hdecode|].
  split; [intros Hhex; apply toLowerCase_decodeHex; assumption|].
  split; [exact Hfresh|]. split; [|split; [intros raw; rewrite Hstr|]; reflexivity].
  intros keyStr Hfrom.
  apply fromString_Ok_inv in Hfrom as (text & data & k0 & _ & _ & Hk0 & Htext).
  rewrite <- Htrue, Hk0.
  destruct Htext as [[Hlen ->]|(Hlen & _ & ->)].
  - rewrite decide_False by lia. reflexivity.
  - rewrite decide_True by exact Hlen. reflexivity.
Qed.

(** ** The keystore *)

(** C7, amended: [toKeystore] hands the encoder all 64 bytes the key holds,
    the seed followed by the public key; a key read back from the blob under
    the same passphrase has the same bytes and public key and no chain
    code, and reading it under another passphrase throws
    [KeyMismatchError]. *)
Theorem keystore_roundtrip (o : origin) (k : Ed25519PrivateKey) (passphrase : string) :
  Built o k →
  toKeystore k passphrase
  = createKeystore (toBytes k ++ pk_keyData (key_publicKey k)) passphrase ∧
  length (toBytes k ++ pk_keyData (key_publicKey k)) = 64 ∧
  keystore_decode (toKeystore k passphrase) passphrase = Ok (_keyData k) ∧
  (∃ k', fromKeystore (toKeystore k passphrase) passphrase = Ok k' ∧
         toBytes k' = toBytes k ∧ key_publicKey k' = key_publicKey k ∧
         _chainCode k' = None) ∧
  (∀ other, other ≠ passphrase →
     fromKeystore (toKeystore k passphrase) other = Throw KeyMismatchError).
Proof.
  intros Hk.
  destruct (keyData_shape o k Hk) as (Hlen & _ & Hdata).
  pose proof (Built_invariant o k Hk) as (_ & Hpk & _).
  unfold toKeystore, createKeystore, fromKeystore, loadKeystore.
  rewrite <- Hdata. split; [reflexivity|]. split; [exact Hlen|].
  rewrite keystore_decode_encode. split; [reflexivity|]. split.
  - exists (pairKey (_keyData k)). cbn [bind].
    pose proof (fromBytes_pair (_keyData k) Hlen) as Hpair.
    unfold fromBytes in Hpair. rewrite switch_32_64 in Hpair.
    rewrite decide_False, decide_True in Hpair by lia.
    split; [exact Hpair|]. split; [reflexivity|]. split; [|reflexivity].
    cbn. destruct (key_publicKey k) as [pk]. cbn in Hpk. rewrite Hpk. reflexivity.
  - intros other Hother. rewrite keystore_decode_mismatch by exact Hother.
    reflexivity.
Qed.

End KeyProperties.

(** ** Views and the store *)

Example write_through_subarray :
  let '(σ, v) := Store.alloc [] [x01; x02; x03] in
  Store.contents (Store.write σ (Store.subarray v 1 3) 0 xff) v = [x01; xff; x03].
Proof. reflexivity. Qed.

Lemma contents_app_old (σ extra : list bytes) (v : Store.view) :
  Store.allocated σ v → Store.contents (σ ++ extra) v = Store.contents σ v.
Proof.
  unfold Store.allocated, Store.contents. intros Hv.
  rewrite lookup_app_l by exact Hv. reflexivity.
Qed.

Lemma contents_alloc_new (σ : list bytes) (data : bytes) :
  Store.contents (Store.alloc σ data).1 (Store.alloc σ data).2 = data.
Proof.
  unfold Store.contents, Store.alloc. cbn.
  rewrite list_lookup_middle by reflexivity. cbn.
  rewrite drop_0. apply take_ge. reflexivity.
Qed.

Lemma alloc_allocated (σ : list bytes) (data : bytes) :
  Store.allocated (Store.alloc σ data).1 (Store.alloc σ data).2 ∧
  ¬ Store.allocated σ (Store.alloc σ data).2.
Proof.
  unfold Store.allocated, Store.alloc. cbn. rewrite length_app. cbn. lia.
Qed.

Lemma contents_subarray (σ : list bytes) (v : Store.view) (b e : nat) :
  Store.contents σ (Store.subarray v b e) = subarray (Store.contents σ v) b e.
Proof.
  unfold Store.contents, Store.subarray, subarray. cbn.
  set (data := default [] (σ !! Store.buffer v)).
  rewrite skipn_firstn_comm, take_take, drop_drop.
  destruct (decide (b ≤ Store.byteLength v)) as [Hb|Hb].
  - rewrite (Nat.min_l b) by exact Hb. f_equal. lia.
  - replace (e `min` Store.byteLength v - b `min` Store.byteLength v) with 0 by lia.
    replace ((e - b) `min` (Store.byteLength v - b)) with 0 by lia.
    reflexivity.
Qed.

Lemma write_length (σ : list bytes) (w : Store.view) (i : nat) (x : byte) :
  length (Store.write σ w i x) = length σ.
Proof.
  unfold Store.write. case_decide; [|reflexivity].
  destruct (σ !! Store.buffer w); [apply length_insert | reflexivity].
Qed.

Lemma contents_write_other (σ : list bytes) (w v : Store.view) (i : nat) (x : byte) :
  Store.buffer v ≠ Store.buffer w →
  Store.contents (Store.write σ w i x) v = Store.contents σ v.
Proof.
  intros Hne. unfold Store.write. case_decide; [|reflexivity].
  destruct (σ !! Store.buffer w) as [data|] eqn:Hdata; [|reflexivity].
  unfold Store.contents. rewrite list_lookup_insert_ne by congruence. reflexivity.
Qed.

Lemma writes_length (ws : list (Store.view * nat * byte)) (σ : list bytes) :
  length (Store.writes σ ws) = length σ.
Proof.
  revert σ. induction ws as [|w ws IH]; intros σ; [reflexivity|].
  cbn. rewrite IH. apply write_length.
Qed.

Lemma contents_writes_other (ws : list (Store.view * nat * byte)) (σ : list bytes)
  (b : nat) (v : Store.view) :
  Forall (λ w, Store.buffer w.1.1 = b) ws → Store.buffer v ≠ b →
  Store.contents (Store.writes σ ws) v = Store.contents σ v.
Proof.
  intros Hws Hv. revert σ.
  induction Hws as [|w ws Hw _ IH]; intros σ; [reflexivity|].
  cbn. rewrite IH. apply contents_write_other. congruence.
Qed.

Section StoreProperties.
Context {prims : Primitives}.

(** A key object stands for the same key in two stores that agree on its
    byte arrays. *)
Lemma snapshot_agree (σ σ' : list bytes) (k : Store.KeyObject) :
  Store.contents σ' (Store.keyData k) = Store.contents σ (Store.keyData k) →
  (∀ c, Store.chainCode k = Some c → Store.contents σ' c = Store.contents σ c) →
  Store.snapshot σ' k = Store.snapshot σ k.
Proof.
  intros Hdata Hchain. unfold Store.snapshot. rewrite Hdata. f_equal.
  destruct (Store.chainCode k) as [c|]; [|reflexivity].
  cbn. rewrite (Hchain c eq_refl). reflexivity.
Qed.

(** The store operations compute what the operations on values compute. *)
Lemma store_fromBytes (σ : list bytes) (data : Store.view) :
  Store.allocated σ data →
  Store.snapshot_result (Store.fromBytes σ data) = fromBytes (Store.contents σ data) ∧
  ∀ out, Store.fromBytes σ data = Ok out →
         (∃ extra, out.1 = σ ++ extra) ∧ Store.allocated out.1 (Store.keyData out.2)
         ∧ Store.chainCode out.2 = None.
Proof.
  intros Hdata. unfold Store.fromBytes, fromBytes. rewrite !switch_32_64.
  destruct (decide (length (Store.contents σ data) = 32)) as [H32|H32].
  - unfold Store.nacl_sign_keyPair_fromSeed, nacl_sign_keyPair_fromSeed.
    rewrite !decide_True by exact H32.
    set (seed := Store.contents σ data) in *.
    cbn [bind Store.alloc fst snd].
    unfold Store.new_Ed25519PrivateKey, new_Ed25519PrivateKey. cbn [fst snd privateKey publicKey].
    set (σ1 := σ ++ [ed25519_public seed]).
    pose proof (contents_alloc_new σ1 (seed ++ ed25519_public seed)) as Hsk.
    pose proof (contents_alloc_new σ (ed25519_public seed)) as Hpk.
    unfold Store.alloc in Hsk, Hpk. cbn [fst snd] in Hsk, Hpk.
    fold σ1 in Hpk. rewrite Hsk.
    rewrite contents_app_old
      by (unfold Store.allocated, σ1; cbn; rewrite length_app; cbn; lia).
    rewrite Hpk.
    case_decide as Hlen; [split; [reflexivity | discriminate]|].
    destruct (Ed25519PublicKey_fromBytes (ed25519_public seed)) as [pk|e];
      cbn [bind]; [|split; [reflexivity | discriminate]].
    split.
    + unfold Store.snapshot_result. cbn [bind fst snd]. unfold Store.snapshot.
      cbn [Store.keyData Store.publicKey Store.asStringRaw Store.chainCode].
      rewrite Hsk. reflexivity.
    + intros out [= <-]. cbn. split; [|split; [|reflexivity]].
      * exists [ed25519_public seed; seed ++ ed25519_public seed].
        unfold σ1. rewrite <- app_assoc. reflexivity.
      * unfold Store.allocated. cbn. rewrite length_app. cbn. lia.
  - destruct (decide (length (Store.contents σ data) = 64)) as [H64|H64];
      [|split; [reflexivity | discriminate]].
    unfold Store.nacl_sign_keyPair_fromSecretKey, nacl_sign_keyPair_fromSecretKey.
    rewrite !decide_True by exact H64.
    set (secret := Store.contents σ data) in *.
    cbn [bind Store.alloc fst snd].
    unfold Store.new_Ed25519PrivateKey, new_Ed25519PrivateKey. cbn [fst snd privateKey publicKey].
    pose proof (contents_alloc_new (σ ++ [drop 32 secret]) secret) as Hsk.
    pose proof (contents_alloc_new σ (drop 32 secret)) as Hpk.
    unfold Store.alloc in Hsk, Hpk. cbn [fst snd] in Hsk, Hpk.
    rewrite Hsk.
    rewrite contents_app_old
      by (unfold Store.allocated; cbn; rewrite length_app; cbn; lia).
    rewrite Hpk.
    case_decide as Hlen; [split; [reflexivity | discriminate]|].
    destruct (Ed25519PublicKey_fromBytes (drop 32 secret)) as [pk|e];
      cbn [bind]; [|split; [reflexivity | discriminate]].
    split.
    + unfold Store.snapshot_result. cbn [bind fst snd]. unfold Store.snapshot.
      cbn [Store.keyData Store.publicKey Store.asStringRaw Store.chainCode].
      rewrite Hsk. reflexivity.
    + intros out [= <-]. cbn. split; [|split; [|reflexivity]].
      * exists [drop 32 secret; secret].
        rewrite <- app_assoc. reflexivity.
      * unfold Store.allocated. cbn. rewrite !length_app. cbn. lia.
Qed.

Lemma store_deriveChildKey (σ : list bytes) (parentKey chain : Store.view) (index : Z) :
  Store.allocated σ chain →
  let out := Store.deriveChildKey σ parentKey chain index in
  (Store.contents out.1 out.2.1, Store.contents out.1 out.2.2)
  = deriveChildKey (Store.contents σ parentKey) (Store.contents σ chain) index ∧
  (∃ extra, out.1 = σ ++ extra) ∧
  Store.allocated out.1 out.2.1 ∧ Store.allocated out.1 out.2.2.
Proof.
  intros Hchain. unfold Store.deriveChildKey, deriveChildKey.
  set (input := x00 :: Store.contents σ parentKey ++ bigEndian32 (hardened index)).
  pose proof (contents_alloc_new σ input) as Hinput.
  unfold Store.alloc in *. cbn [fst snd] in *.
  rewrite Hinput, (contents_app_old σ [input] chain Hchain).
  set (digest := hmac_sha512 (Store.contents σ chain) input).
  pose proof (contents_alloc_new (σ ++ [input]) digest) as Hdigest.
  unfold Store.alloc in Hdigest. cbn [fst snd] in Hdigest.
  rewrite !contents_subarray, Hdigest.
  split; [|split; [|split]].
  - f_equal. unfold subarray. cbn [Store.byteLength]. apply take_ge.
    rewrite length_drop. lia.
  - exists [input; digest]. rewrite <- app_assoc. reflexivity.
  - unfold Store.allocated. cbn. rewrite !length_app. cbn. lia.
  - unfold Store.allocated. cbn. rewrite !length_app. cbn. lia.
Qed.

Lemma store_derive (σ : list bytes) (k : Store.KeyObject) (index : Z) :
  Store.valid σ k →
  Store.snapshot_result (Store.derive σ k index)
  = derive (Store.snapshot σ k) index.
Proof.
  intros [Hdata Hchain]. unfold Store.derive, derive.
  unfold Store.snapshot at 1. cbn [_chainCode].
  destruct (Store.chainCode k) as [c|]; [|reflexivity].
  cbn [fmap option_fmap option_map]. cbn [Store.snapshot _keyData].
  rewrite <- contents_subarray.
  pose proof (store_deriveChildKey σ (Store.subarray (Store.keyData k) 0 32) c index Hchain)
    as (Hstep & _ & Hkey & Hcode).
  cbn zeta in Hstep, Hkey, Hcode. rewrite <- Hstep.
  destruct (Store.deriveChildKey σ (Store.subarray (Store.keyData k) 0 32) c index)
    as [σ1 [keyBytes childChainCode]].
  cbn [fst snd] in *.
  destruct (store_fromBytes σ1 keyBytes Hkey) as [Hsim Hext].
  rewrite <- Hsim.
  destruct (Store.fromBytes σ1 keyBytes) as [out|e]; [|reflexivity].
  destruct (Hext out eq_refl) as ((extra & Hout) & _ & _).
  unfold Store.snapshot_result. cbn [bind fst snd].
  rewrite <- (contents_app_old σ1 extra _ Hcode), <- Hout.
  reflexivity.
Qed.

Lemma store_toString (σ : list bytes) (k : Store.KeyObject) (raw : bool) :
  (Store.toString σ k raw).1 = (toString (Store.snapshot σ k) raw).1 ∧
  Store.snapshot σ (Store.toString σ k raw).2 = (toString (Store.snapshot σ k) raw).2.
Proof.
  unfold Store.toString, toString, Store.snapshot, Store.set_asStringRaw,
    set_asStringRaw.
  cbn [_asStringRaw _keyData _chainCode key_publicKey Store.asStringRaw
       Store.keyData Store.chainCode Store.publicKey fst snd].
  rewrite contents_subarray. destruct (Store.asStringRaw k); split; reflexivity.
Qed.

Lemma store_toBytes (σ : list bytes) (k : Store.KeyObject) :
  Store.contents (Store.toBytes σ k).1 (Store.toBytes σ k).2
  = toBytes (Store.snapshot σ k).
Proof.
  unfold Store.toBytes, Store.slice. rewrite contents_alloc_new.
  apply contents_subarray.
Qed.

(** C8: the array that [toBytes] returns lies in a buffer of its own, which
    did not exist before the call: whatever is written to that buffer
    afterwards, through the array or through any other window on it, the
    key stands for the same value, and [toBytes], [toString] and [derive]
    give what they gave before. *)
Theorem toBytes_returns_fresh_copy (σ : list bytes) (k : Store.KeyObject)
  (ws : list (Store.view * nat * byte)) :
  Store.valid σ k →
  Forall (λ w, Store.buffer w.1.1 = Store.buffer (Store.toBytes σ k).2) ws →
  let σ1 := (Store.toBytes σ k).1 in
  let copy := (Store.toBytes σ k).2 in
  let σ2 := Store.writes σ1 ws in
  Store.contents σ1 copy = toBytes (Store.snapshot σ k) ∧
  ¬ Store.allocated σ copy ∧
  Store.buffer copy ≠ Store.buffer (Store.keyData k) ∧
  Store.snapshot σ2 k = Store.snapshot σ k ∧
  Store.contents (Store.toBytes σ2 k).1 (Store.toBytes σ2 k).2
  = toBytes (Store.snapshot σ k) ∧
  (∀ raw, Store.toString σ2 k raw = Store.toString σ k raw) ∧
  (∀ index, Store.snapshot_result (Store.derive σ2 k index)
            = Store.snapshot_result (Store.derive σ k index)).
Proof.
  intros Hvalid Hws σ1 copy σ2.
  pose proof Hvalid as [Hdata Hchain].
  assert (Hfresh : Store.buffer copy = length σ) by reflexivity.
  assert (Hσ1 : σ1 = σ ++ [Store.contents σ (Store.subarray (Store.keyData k) 0 32)])
    by reflexivity.
  assert (Hframe : ∀ v, Store.allocated σ v → Store.contents σ2 v = Store.contents σ v).
  { intros v Hv. unfold σ2.
    rewrite (contents_writes_other ws σ1 (Store.buffer copy) v Hws)
      by (unfold Store.allocated in Hv; lia).
    rewrite Hσ1. apply contents_app_old. exact Hv. }
  assert (Hsnap : Store.snapshot σ2 k = Store.snapshot σ k).
  { apply snapshot_agree; [apply Hframe; exact Hdata|].
    intros c Hc. apply Hframe. rewrite Hc in Hchain. exact Hchain. }
  assert (Hvalid2 : Store.valid σ2 k).
  { unfold Store.valid, Store.allocated in *. unfold σ2.
    rewrite writes_length, Hσ1, length_app. cbn.
    split; [lia|]. destruct (Store.chainCode k); [lia | exact I]. }
  split; [apply store_toBytes|].
  split; [unfold Store.allocated; lia|].
  split; [unfold Store.allocated in Hdata; lia|].
  split; [exact Hsnap|].
  split; [rewrite store_toBytes, Hsnap; reflexivity|].
  split.
  - intros raw. unfold Store.toString.
    rewrite (Hframe (Store.subarray (Store.keyData k) 0 32)) by exact Hdata.
    reflexivity.
  - intros index. rewrite !store_derive by assumption. rewrite Hsnap. reflexivity.
Qed.

End StoreProperties.

(** ** The operations at work on the sample implementation *)

Section Samples.
#[local] Existing Instance sample_primitives.
#[local] Existing Instance sample_keystore.

Example fromString_sample :
  (try k ← fromString (prims := sample_primitives) sample_text;
   Ok ((toString k false).1, toBytes k))
  = Ok (sample_prefix +:+ sample_text, sample_seed).
Proof. vm_compute. reflexivity. Qed.

Example fromMnemonic_sample :
  (try k ← fromMnemonic (prims := sample_primitives) sample_mnemonic "secret";
   Ok (supportsDerivation k, length (toBytes k)))
  = Ok (true, 32).
Proof. vm_compute. reflexivity. Qed.

Lemma chainCode_iff_derivable_witness :
  let k := seedKey (prims := sample_primitives) sample_seed in
  Built (prims := sample_primitives) (codec := sample_keystore) ByBytes k ∧
  ∀ index,
    derive k index
    = Throw (Error "this Ed25519 private key does not support key derivation").
Proof.
  intros k.
  assert (Hk : Built (prims := sample_primitives) (codec := sample_keystore) ByBytes k)
    by (apply (built_fromBytes sample_seed); reflexivity).
  split; [exact Hk|].
  intros index.
  apply (chainCode_iff_derivable (prims := sample_primitives)
           (codec := sample_keystore) ByBytes k Hk).
  reflexivity.
Defined.

Lemma fromBytes_accepts_exactly_32_or_64_witness :
  length sample_seed = 32 ∧
  fromBytes (prims := sample_primitives) sample_seed = Ok (seedKey sample_seed).
Proof.
  split; [reflexivity|].
  apply (fromBytes_accepts_exactly_32_or_64 (prims := sample_primitives) sample_seed).
  reflexivity.
Defined.

Lemma fromString_accepts_exactly_witness :
  String.length (sample_prefix +:+ sample_text_upper) = 96 ∧
  startsWith (sample_prefix +:+ sample_text_upper) sample_prefix = true ∧
  succeeds (fromString (prims := sample_primitives) (sample_prefix +:+ sample_text_upper)).
Proof.
  split; [reflexivity|]. split; [reflexivity|].
  apply (fromString_accepts_exactly (prims := sample_primitives)
           (sample_prefix +:+ sample_text_upper)).
  right. right. split; reflexivity.
Defined.

(** C6, as stated, fails: text of 64 characters is accepted also when its
    characters are not hexadecimal digits. *)
Lemma fromString_accepts_other_text :
  ¬ ∀ (prims : Primitives) (keyStr : string),
      succeeds (fromString keyStr) →
      (String.length keyStr = 64 ∨ String.length keyStr = 128) ∧
      isHex keyStr = true ∨
      String.length keyStr = 96 ∧
      startsWith keyStr ed25519PrivKeyPrefix = true ∧
      isHex (string_slice keyStr 32) = true.
Proof.
  intros Hclaim.
  destruct (Hclaim sample_primitives sample_text_other) as [[_ Hhex]|[Hlen _]].
  - eexists. vm_compute. reflexivity.
  - vm_compute in Hhex. discriminate.
  - vm_compute in Hlen. discriminate.
Qed.

Lemma keyData_is_seed_then_public_witness :
  let k := seedKey (prims := sample_primitives) sample_seed in
  Built (prims := sample_primitives) (codec := sample_keystore) ByBytes k ∧
  length (_keyData k) = 64.
Proof.
  intros k.
  assert (Hk : Built (prims := sample_primitives) (codec := sample_keystore) ByBytes k)
    by (apply (built_fromBytes sample_seed); reflexivity).
  split; [exact Hk|].
  apply (keyData_is_seed_then_public (prims := sample_primitives)
           (codec := sample_keystore) ByBytes k).
  exact Hk.
Defined.

Lemma fromString_toString_128_witness :
  String.length sample_text_pair = 128 ∧ isHex sample_text_pair = true ∧
  ∃ k,
    fromString (prims := sample_primitives) sample_text_pair = Ok k ∧
    Built (prims := sample_primitives) (codec := sample_keystore) (ByString 128) k ∧
    (toString k false).1 = sample_prefix +:+ sample_text_pair ∧
    String.length (toString k false).1 = 160 ∧
    fromString (prims := sample_primitives) (toString k false).1 = Throw BadKeyError.
Proof.
  split; [reflexivity|]. split; [reflexivity|].
  apply (fromString_toString_128 (prims := sample_primitives)
           (codec := sample_keystore) sample_text_pair); reflexivity.
Defined.

(** C4, as stated, fails on a key read from uppercase text: [toString]
    returns the text it was given, not the lowercase encoding of the seed. *)
Lemma toString_raw_keeps_caller_text :
  ¬ ∀ (prims : Primitives) (codec : KeystoreCodec) (o : origin)
      (k : Ed25519PrivateKey),
      Built o k → (toString k true).1 = encodeHex (toBytes k).
Proof.
  intros Hclaim.
  destruct (fromString (prims := sample_primitives) sample_text_upper)
    as [k|e] eqn:Hk; [|vm_compute in Hk; discriminate].
  pose proof (Hclaim sample_primitives sample_keystore _ k
                (built_fromString sample_text_upper k Hk)) as Habs.
  vm_compute in Hk. injection Hk as <-. vm_compute in Habs. discriminate.
Qed.

Lemma toString_raw_is_seed_text_witness :
  ∃ k,
    fromString (prims := sample_primitives) sample_text_upper = Ok k ∧
    Built (ByString 64) k ∧ ByString 64 ≠ ByString 128 ∧
    (toString k true).1 = sample_text_upper ∧
    toLowerCase (toString k true).1 = encodeHex (toBytes k) ∧
    (toString k false).1 = sample_prefix +:+ sample_text_upper.
Proof.
  destruct (fromString (prims := sample_primitives) sample_text_upper)
    as [k|e] eqn:Hk; [|vm_compute in Hk; discriminate].
  exists k. split; [reflexivity|].
  assert (Hbuilt : Built (prims := sample_primitives) (codec := sample_keystore)
                     (ByString 64) k)
    by exact (built_fromString sample_text_upper k Hk).
  assert (Hne : ByString 64 ≠ ByString 128) by discriminate.
  destruct (toString_raw_is_seed_text (prims := sample_primitives)
              (codec := sample_keystore) (ByString 64) k Hbuilt Hne)
    as (_ & _ & Hlower & _ & Htext & _ & Hprefixed).
  specialize (Htext sample_text_upper Hk).
  rewrite decide_False in Htext by (vm_compute; lia).
  rewrite Hprefixed. rewrite Htext in *.
  split; [exact Hbuilt|]. split; [exact Hne|].
  split; [reflexivity|]. split; [apply Hlower; reflexivity | reflexivity].
Defined.

(** C7, as stated, fails: what the keystore of a key holds is not its
    32-byte seed but the 64 bytes of its internal representation. *)
Lemma toKeystore_holds_keyData :
  ¬ ∀ (prims : Primitives) (codec : KeystoreCodec) (o : origin)
      (k : Ed25519PrivateKey) (passphrase : string),
      Built o k →
      keystore_decode (toKeystore k passphrase) passphrase = Ok (toBytes k).
Proof.
  intros Hclaim.
  pose proof (Hclaim sample_primitives sample_keystore ByBytes
                (seedKey sample_seed) "secret"
                (built_fromBytes sample_seed _ eq_refl)) as Habs.
  vm_compute in Habs. discriminate.
Qed.

Lemma keystore_roundtrip_witness :
  let k := seedKey sample_seed in
  Built ByBytes k ∧
  length (_keyData k) = 64 ∧
  keystore_decode (toKeystore k "secret") "secret" = Ok (_keyData k) ∧
  (∃ k', fromKeystore (toKeystore k "secret") "secret" = Ok k' ∧
         toBytes k' = toBytes k ∧ key_publicKey k' = key_publicKey k ∧
         _chainCode k' = None) ∧
  fromKeystore (toKeystore k "secret") "Secret" = Throw KeyMismatchError.
Proof.
  intros k.
  assert (Hk : Built ByBytes k)
    by (apply (built_fromBytes sample_seed); reflexivity).
  destruct (keystore_roundtrip ByBytes k "secret" Hk)
    as (_ & _ & Hdecode & Hsame & Hother).
  split; [exact Hk|]. split; [reflexivity|]. split; [exact Hdecode|].
  split; [exact Hsame|]. apply Hother. discriminate.
Defined.

Example store_fromBytes_sample :
  Store.snapshot_result
    (Store.fromBytes [sample_seed]
       {| Store.buffer := 0; Store.byteOffset := 0; Store.byteLength := 32 |})
  = Ok (seedKey sample_seed).
Proof. vm_compute. reflexivity. Qed.

Lemma toBytes_returns_fresh_copy_witness :
  let copy := (Store.toBytes sample_store sample_object).2 in
  let ws := [(copy, 0, xff); (Store.subarray copy 8 16, 3, x7f)] in
  let σ2 := Store.writes (Store.toBytes sample_store sample_object).1 ws in
  Store.valid sample_store sample_object ∧
  Forall (λ w, Store.buffer w.1.1 = Store.buffer copy) ws ∧
  Store.contents σ2 copy ≠ toBytes (Store.snapshot sample_store sample_object) ∧
  Store.snapshot σ2 sample_object = Store.snapshot sample_store sample_object ∧
  Store.contents (Store.toBytes σ2 sample_object).1 (Store.toBytes σ2 sample_object).2
  = toBytes (Store.snapshot sample_store sample_object).
Proof.
  intros copy ws σ2.
  assert (Hvalid : Store.valid sample_store sample_object)
    by (unfold Store.valid, Store.allocated; simpl; lia).
  assert (Hws : Forall (λ w, Store.buffer w.1.1 = Store.buffer copy) ws)
    by (repeat constructor).
  destruct (toBytes_returns_fresh_copy sample_store sample_object ws Hvalid Hws)
    as (_ & _ & _ & Hsnap & Hbytes & _).
  split; [exact Hvalid|]. split; [exact Hws|].
  split; [vm_compute; discriminate|].
  split; [exact Hsnap | exact Hbytes].
Defined.

End Samples.

(** * Further properties of the key operations *)

Section MoreKeyProperties.
Context {prims : Primitives} {codec : KeystoreCodec}.

Lemma derive_seedKey (seed c : bytes) (index : Z) :
  length seed = 32 →
  derive (set_chainCode (seedKey seed) c) index
  = Ok (set_chainCode (seedKey (deriveChildKey seed c index).1)
          (deriveChildKey seed c index).2).
Proof.
  intros Hseed. rewrite (derive_Some _ c) by reflexivity.
  cbn [_keyData set_chainCode seedKey].
  rewrite subarray_0_32_app by exact Hseed. reflexivity.
Qed.

Lemma deriveAll_cons (k : Ed25519PrivateKey) (index : Z) (path : list Z) :
  deriveAll k (index :: path)
  = try child ← derive k index; deriveAll child path.
Proof.
  unfold deriveAll. cbn [foldl bind].
  destruct (derive k index) as [child|e]; [reflexivity|].
  cbn [bind]. induction path as [|i path IH]; [reflexivity | exact IH].
Qed.

(** X1: the key that [fromMnemonic] returns is the one reached from the
    root key, built from the left half of the seed digest and carrying the
    right half as chain code, by [derive(44).derive(3030).derive(0).derive(0)]. *)
Theorem fromMnemonic_derives_from_root (mnemonic : Mnemonic) (passphrase : string) :
  let digest :=
    hmac_sha512 (bytes_of_string "ed25519 seed")
      (pbkdf2 (Mnemonic_toString mnemonic) ("mnemonic" +:+ passphrase) 2048 64 sha512) in
  fromMnemonic mnemonic passphrase
  = try root ← fromBytes (take 32 digest);
    deriveAll (set_chainCode root (drop 32 digest)) [44; 3030; 0; 0]%Z.
Proof.
  intros digest.
  assert (Hroot : length (take 32 digest) = 32)
    by (rewrite length_take; unfold digest; rewrite hmac_sha512_length; lia).
  rewrite fromBytes_seed by exact Hroot. cbn [bind].
  rewrite fromMnemonic_unfold. unfold fromMnemonic_steps. fold digest.
  rewrite deriveAll_cons, derive_seedKey by exact Hroot. cbn [bind].
  pose proof (deriveChildKey_lengths (take 32 digest) (drop 32 digest) 44) as [H1 _].
  destruct (deriveChildKey (take 32 digest) (drop 32 digest) 44) as [key1 chain1].
  cbn [fst snd] in *.
  rewrite deriveAll_cons, derive_seedKey by exact H1. cbn [bind].
  pose proof (deriveChildKey_lengths key1 chain1 3030) as [H2 _].
  destruct (deriveChildKey key1 chain1 3030) as [key2 chain2]. cbn [fst snd] in *.
  rewrite deriveAll_cons, derive_seedKey by exact H2. cbn [bind].
  pose proof (deriveChildKey_lengths key2 chain2 0) as [H3 _].
  destruct (deriveChildKey key2 chain2 0) as [key3 chain3]. cbn [fst snd] in *.
  rewrite deriveAll_cons, derive_seedKey by exact H3. cbn [bind].
  reflexivity.
Qed.

Lemma deriveAll_supported (path : list Z) (k : Ed25519PrivateKey) :
  is_Some (_chainCode k) →
  ∃ k', deriveAll k path = Ok k' ∧ is_Some (_chainCode k').
Proof.
  revert k. induction path as [|index path IH]; intros k Hk.
  - exists k. split; [reflexivity | exact Hk].
  - destruct Hk as [c Hc]. rewrite deriveAll_cons, (derive_Some _ c) by exact Hc.
    cbn [bind]. apply IH. eexists. reflexivity.
Qed.

(** X2: a key with a chain code can be derived along any path, and the key
    at the end of the path has a chain code again; a key without one throws
    at the first step of any path; and deriving along two paths in turn is
    deriving along the two paths joined. *)
Theorem deriveAll_composes (k : Ed25519PrivateKey) (path rest : list Z) :
  (is_Some (_chainCode k) →
   ∃ k', deriveAll k path = Ok k' ∧ supportsDerivation k' = true) ∧
  (_chainCode k = None → path ≠ [] →
   deriveAll k path
   = Throw (Error "this Ed25519 private key does not support key derivation")) ∧
  deriveAll k (path ++ rest) = try k' ← deriveAll k path; deriveAll k' rest.
Proof.
  split; [|split].
  - intros Hk. destruct (deriveAll_supported path k Hk) as (k' & Hk' & [c Hc]).
    exists k'. split; [exact Hk'|]. unfold supportsDerivation. rewrite Hc. reflexivity.
  - intros Hnone Hpath. destruct path as [|index path]; [contradiction|].
    rewrite deriveAll_cons, derive_None by exact Hnone. reflexivity.
  - revert k. induction path as [|index path IH]; intros k; [reflexivity|].
    rewrite <- app_comm_cons, !deriveAll_cons.
    destruct (derive k index) as [child|e]; [apply IH | reflexivity].
Qed.

Lemma computed_publicKey (o : origin) (k : Ed25519PrivateKey) :
  Built o k → computesPublicKey o = true →
  ∃ seed, length seed = 32 ∧ _keyData k = seed ++ ed25519_public seed ∧
          key_publicKey k = {| pk_keyData := ed25519_public seed |}.
Proof.
  induction 1 as [data k Hk | keyStr k Hk | mnemonic passphrase k Hk
                 | keystore passphrase k Hk | source k Hk
                 | o parent index k Hparent IH Hk | o k raw Hk IH];
    intros Ho; try discriminate.
  - apply bool_decide_eq_true in Ho.
    apply fromString_Ok_inv in Hk as (body & data & k0 & Hdata & Hk0 & -> & Hbody).
    apply decodeHex_length in Hdata.
    assert (Hbodylen : String.length body = 64).
    { destruct Hbody as [[Hlen ->]|(Hlen & _ & ->)]; [lia|].
      unfold string_slice. rewrite substring_length; lia. }
    rewrite fromBytes_seed in Hk0 by lia. injection Hk0 as <-.
    exists data. split; [lia|]. split; reflexivity.
  - rewrite fromMnemonic_unfold in Hk. injection Hk as <-.
    destruct (fromMnemonic_steps_lengths mnemonic passphrase) as [Hlen _].
    eexists. split; [exact Hlen|]. split; reflexivity.
  - unfold generate in Hk. rewrite fromBytes_seed in Hk
      by (unfold randomBytes; rewrite length_map, length_seq; reflexivity).
    injection Hk as <-. eexists. split; [|split; reflexivity].
    unfold randomBytes. rewrite length_map, length_seq. reflexivity.
  - destruct (_chainCode parent) as [c|] eqn:Hc.
    + rewrite (derive_Some _ _ _ Hc) in Hk. injection Hk as <-.
      destruct (deriveChildKey_lengths (subarray (_keyData parent) 0 32) c index)
        as [Hlen _].
      eexists. split; [exact Hlen|]. split; reflexivity.
    + rewrite (derive_None _ _ Hc) in Hk. discriminate.
  - destruct (IH Ho) as (seed & Hlen & Hdata & Hpk).
    exists seed. split; [exact Hlen|]. split; assumption.
Qed.

(** X3: for a key from [fromMnemonic], [derive], [generate], or from
    [fromString] on the 64- or 96-character form, the public key is the one
    computed from the seed, so [fromBytes(k.toBytes())] gives back a key
    with the same 64 bytes of key data and the same public key (and without
    the cache and the chain code). *)
Theorem fromBytes_toBytes_restores_key (o : origin) (k : Ed25519PrivateKey) :
  Built o k → computesPublicKey o = true →
  pk_keyData (key_publicKey k) = ed25519_public (toBytes k) ∧
  ∃ k', fromBytes (toBytes k) = Ok k' ∧
        _keyData k' = _keyData k ∧ key_publicKey k' = key_publicKey k ∧
        _asStringRaw k' = None ∧ _chainCode k' = None.
Proof.
  intros Hk Ho.
  destruct (computed_publicKey o k Hk Ho) as (seed & Hlen & Hdata & Hpk).
  assert (Hseed : toBytes k = seed).
  { unfold toBytes. rewrite Hdata. apply subarray_0_32_app. exact Hlen. }
  rewrite Hseed, Hpk. split; [reflexivity|].
  exists (seedKey seed). rewrite fromBytes_seed by exact Hlen.
  rewrite Hdata. repeat split.
Qed.

(** X4: text of 64 characters and the same text behind the algorithm prefix
    are read alike: [fromString] returns the same key, with the same cached
    text, or throws the same error. *)
Theorem fromString_prefix_optional (rawStr : string) :
  String.length rawStr = 64 →
  fromString (ed25519PrivKeyPrefix +:+ rawStr) = fromString rawStr.
Proof.
  intros Hlen. rewrite !fromString_eq.
  rewrite string_length_app, ed25519PrivKeyPrefix_length, Hlen.
  rewrite (decide_False (P := 32 + 64 = 64 ∨ 32 + 64 = 128)) by lia.
  rewrite (decide_True (P := 32 + 64 = 96)) by reflexivity.
  rewrite (decide_True (P := 64 = 64 ∨ 64 = 128)) by auto.
  rewrite startsWith_app, string_slice_app. reflexivity.
Qed.

End MoreKeyProperties.

(** * The retry loop *)

Lemma slept_app (tr tr' : list event) : slept (tr ++ tr') = slept tr ++ slept tr'.
Proof. apply omap_app. Qed.

Section ExecutableProperties.
Context {State Client Channel AccountId RequestT ResponseT OutputT : Type}.
Variable getNetworkChannel : Client → AccountId → State → result Channel * State.
Variable this : HederaExecutable State Client Channel AccountId RequestT ResponseT OutputT.
Variable client : Client.

Lemma executeFrom_S (fuel attempt : nat) (w : State * list event) :
  executeFrom getNetworkChannel (S fuel) this client attempt w
  = match attemptOnce getNetworkChannel this client attempt w with
    | (Ok answer, w') => (Some (settled answer), w')
    | (Throw e, w') =>
        executeFrom getNetworkChannel fuel this client (S attempt)
          (w'.1, w'.2 ++ [ConsoleLog "Grpc Error:" (inr e); Sleep (delayOf attempt)])
    end.
Proof.
  cbn [executeFrom].
  destruct (attemptOnce getNetworkChannel this client attempt w) as [[answer|e] w'];
    [reflexivity|].
  unfold andThen, emit. cbn [fst snd]. rewrite <- app_assoc. reflexivity.
Qed.

Lemma call_inv {A : Type} (method : State → result A * State)
  (w : State * list event) (r : result A) (w' : State * list event) :
  call method w = (r, w') → method w.1 = (r, w'.1) ∧ w'.2 = w.2.
Proof.
  unfold call. destruct (method w.1) as [r0 s]. intros [= <- <-]. auto.
Qed.

Ltac next_step name :=
  match goal with
  | |- context [call ?m ?w] =>
      destruct (call m w) as [[name|?] [? ?]] eqn:?
  end.

Ltac calls_inv :=
  repeat match goal with
    | H : call _ _ = _ |- _ => apply call_inv in H as [? ?]; cbn [fst snd] in *
    end.

(** The methods leave the trace alone. *)
Lemma sendOnce_trace (w : State * list event)
  (r : result (RequestT * AccountId * ResponseT * Status * bool))
  (w' : State * list event) :
  sendOnce getNetworkChannel this client w = (r, w') → w'.2 = w.2.
Proof.
  destruct w as [s tr]. unfold sendOnce, andThen. cbn beta.
  do 8 (let x := fresh "x" in
        next_step x; [|intros [= <- <-]; calls_inv; cbn; congruence]).
  intros [= <- <-]. calls_inv. cbn. congruence.
Qed.

(** When every step up to the judgement of the status returns. *)
Lemma sendOnce_Ok (tr : list event) (s0 s1 s2 s3 s4 s5 s6 s7 s8 : State)
  (request : RequestT) (nodeId : AccountId) (channel : Channel)
  (method : RequestT → State → result ResponseT * State)
  (response : ResponseT) (status : Status) (retry : bool) :
  _makeRequest this s0 = (Ok request, s1) →
  _getNodeId this client s1 = (Ok nodeId, s2) →
  getNetworkChannel client nodeId s2 = (Ok channel, s3) →
  _getMethod this channel s3 = (Ok method, s4) →
  _advanceRequest this s4 = (Ok tt, s5) →
  method request s5 = (Ok response, s6) →
  _mapResponseStatus this response s6 = (Ok status, s7) →
  _shouldRetry this status response s7 = (Ok retry, s8) →
  sendOnce getNetworkChannel this client (s0, tr)
  = (Ok (request, nodeId, response, status, retry), (s8, tr)).
Proof.
  intros Hrequest Hnode Hchannel Hmethod Hadvance Hresponse Hstatus Hretry.
  unfold sendOnce, andThen, call. cbn [fst snd].
  rewrite Hrequest; cbn [fst snd]. rewrite Hnode; cbn [fst snd].
  rewrite Hchannel; cbn [fst snd]. rewrite Hmethod; cbn [fst snd].
  rewrite Hadvance; cbn [fst snd]. rewrite Hresponse; cbn [fst snd].
  rewrite Hstatus; cbn [fst snd]. rewrite Hretry; cbn [fst snd].
  reflexivity.
Qed.

(** How one attempt ends: in an exception of a step up to the judgement of
    the status, with nothing added to the trace; or in what [_mapResponse]
    does, after the report of the status and one sleep if [_shouldRetry]
    had answered true. *)
Lemma attemptOnce_inv (attempt : nat) (w : State * list event)
  (r : result (returned OutputT)) (w1 : State * list event) :
  attemptOnce getNetworkChannel this client attempt w = (r, w1) →
  (∃ e, sendOnce getNetworkChannel this client w = (Throw e, w1) ∧
        r = Throw e ∧ w1.2 = w.2) ∨
  (∃ request nodeId response status retry w0,
     sendOnce getNetworkChannel this client w
     = (Ok (request, nodeId, response, status, retry), w0) ∧
     _mapResponse this response nodeId request w0.1 = (r, w1.1) ∧
     w1.2 = w.2 ++ if retry
                   then [ConsoleLog "Bad response status:" (inl status);
                         Sleep (delayOf attempt)]
                   else []).
Proof.
  unfold attemptOnce, andThen. cbn beta.
  destruct (sendOnce getNetworkChannel this client w) as [[sent|e] w0] eqn:Hsend.
  - destruct sent as [[[[request nodeId] response] status] retry].
    apply sendOnce_trace in Hsend as Htrace.
    intros Hrest. right. exists request, nodeId, response, status, retry, w0.
    split; [reflexivity|].
    destruct retry; unfold emit in Hrest; cbn [fst snd] in Hrest;
      apply call_inv in Hrest as [Hmap Hlast]; cbn [fst snd] in Hlast;
      (split; [exact Hmap|]); rewrite Hlast, Htrace.
    + rewrite <- app_assoc. reflexivity.
    + rewrite app_nil_r. reflexivity.
  - intros [= <- <-]. left. exists e.
    apply sendOnce_trace in Hsend as Htrace. auto.
Qed.

Lemma executeFrom_Throw (fuel attempt : nat) (w : State * list event)
  (e : error) (w' : State * list event) :
  executeFrom getNetworkChannel fuel this client attempt w = (Some (Throw e), w') →
  ∃ response nodeId request s,
    _mapResponse this response nodeId request s = (Ok (Rejects e), w'.1).
Proof.
  revert attempt w. induction fuel as [|fuel IH]; intros attempt w.
  - cbn. discriminate.
  - rewrite executeFrom_S.
    destruct (attemptOnce getNetworkChannel this client attempt w)
      as [[answer|e'] w1] eqn:Hattempt; [|apply IH].
    destruct answer as [value|e']; cbn [settled]; intros [= <- <-].
    apply attemptOnce_inv in Hattempt
      as [(e0 & _ & Habs & _)|(request & nodeId & response & status & retry & w0
                               & _ & Hmap & _)]; [discriminate|].
    eauto.
Qed.

(** X5: [execute] rejects in two ways only: [_onExecute] throws, with that
    very exception and before anything is logged, slept or sent; or what
    [_mapResponse] returned, handed on without being awaited, is a promise
    that rejects.  No exception thrown by a method in the loop, and no
    rejection of the awaited network call, reaches the caller. *)
Theorem execute_rejects_in_two_ways (fuel : nat) (w : State * list event)
  (e : error) (w' : State * list event) :
  execute getNetworkChannel fuel this client w = (Some (Throw e), w') →
  (_onExecute this client w.1 = (Throw e, w'.1) ∧ w'.2 = w.2) ∨
  (∃ response nodeId request s,
     _mapResponse this response nodeId request s = (Ok (Rejects e), w'.1)).
Proof.
  unfold execute.
  destruct (call (_onExecute this client) w) as [[done|e'] w1] eqn:Hcall.
  - intros Hloop. right. apply executeFrom_Throw in Hloop. exact Hloop.
  - intros [= <- <-]. left. apply call_inv in Hcall. exact Hcall.
Qed.

(** X6: the first attempt in which no method throws ends [execute]: its
    promise settles as what [_mapResponse] returned for that response, also
    when [_shouldRetry] answers true, in which case the status is logged and
    the delay of the attempt slept once, but no further request is sent. *)
Theorem execute_returns_first_response (fuel attempt : nat) (tr : list event)
  (s0 s1 s2 s3 s4 s5 s6 s7 s8 s9 : State) (request : RequestT)
  (nodeId : AccountId) (channel : Channel)
  (method : RequestT → State → result ResponseT * State)
  (response : ResponseT) (status : Status) (retry : bool)
  (answer : returned OutputT) :
  _makeRequest this s0 = (Ok request, s1) →
  _getNodeId this client s1 = (Ok nodeId, s2) →
  getNetworkChannel client nodeId s2 = (Ok channel, s3) →
  _getMethod this channel s3 = (Ok method, s4) →
  _advanceRequest this s4 = (Ok tt, s5) →
  method request s5 = (Ok response, s6) →
  _mapResponseStatus this response s6 = (Ok status, s7) →
  _shouldRetry this status response s7 = (Ok retry, s8) →
  _mapResponse this response nodeId request s8 = (Ok answer, s9) →
  executeFrom getNetworkChannel (S fuel) this client attempt (s0, tr)
  = (Some (settled answer),
     (s9, tr ++ if retry
                then [ConsoleLog "Bad response status:" (inl status);
                      Sleep (delayOf attempt)]
                else [])).
Proof.
  intros Hrequest Hnode Hchannel Hmethod Hadvance Hresponse Hstatus Hretry Hmap.
  rewrite executeFrom_S. unfold attemptOnce, andThen. cbn beta.
  rewrite (sendOnce_Ok tr s0 s1 s2 s3 s4 s5 s6 s7 s8 request nodeId channel method
             response status retry) by assumption.
  unfold call, emit.
  destruct retry; cbn [fst snd]; rewrite Hmap.
  - rewrite <- app_assoc. reflexivity.
  - rewrite app_nil_r. reflexivity.
Qed.

(** What a failing attempt has slept when the next one starts: its delay
    once, or twice if [_shouldRetry] had answered true in it. *)
Lemma failed_attempt_slept (attempt : nat) (w : State * list event) (e : error)
  (w1 : State * list event) :
  attemptOnce getNetworkChannel this client attempt w = (Throw e, w1) →
  slept (w1.2 ++ [ConsoleLog "Grpc Error:" (inr e); Sleep (delayOf attempt)])
  = slept w.2
    ++ replicate (if retriedIn getNetworkChannel this client w then 2 else 1)
         (delayOf attempt).
Proof.
  intros Hattempt. unfold retriedIn.
  apply attemptOnce_inv in Hattempt
    as [(e0 & Hsend & _ & Htrace)|(request & nodeId & response & status & retry & w0
                                   & Hsend & _ & Htrace)];
    rewrite Hsend, Htrace.
  - rewrite slept_app. reflexivity.
  - destruct retry.
    + rewrite !slept_app, <- app_assoc. reflexivity.
    + rewrite app_nil_r, slept_app. reflexivity.
Qed.

(** X7: after attempts in a row that throw, the loop goes on with the next
    attempt, and it has slept the delay of each of these attempts, in
    order: once, or twice when [_shouldRetry] had answered true in the
    attempt, so that the delay was slept before a later step threw. *)
Theorem failing_attempts_back_off (attempt : nat) (retried : list bool)
  (w w' : State * list event) :
  Failing getNetworkChannel this client attempt retried w w' →
  (∀ fuel,
     executeFrom getNetworkChannel (length retried + fuel) this client attempt w
     = executeFrom getNetworkChannel fuel this client (attempt + length retried) w') ∧
  slept w'.2
  = slept w.2
    ++ concat
         (zip_with
            (λ i (again : bool), replicate (if again then 2 else 1) (delayOf i))
            (seq attempt (length retried)) retried).
Proof.
  induction 1 as [attempt w | attempt retried w e w1 w2 Hthrow Hrest [IHloop IHslept]].
  - split; [intros fuel; rewrite Nat.add_0_r; reflexivity|].
    cbn. rewrite app_nil_r. reflexivity.
  - split.
    + intros fuel. cbn [length]. change (S (length retried) + fuel)
        with (S (length retried + fuel)).
      rewrite executeFrom_S, Hthrow, IHloop. f_equal. lia.
    + cbn [fst snd] in IHslept.
      rewrite (failed_attempt_slept _ _ _ _ Hthrow) in IHslept.
      cbn [length seq zip_with concat].
      rewrite IHslept, <- app_assoc. reflexivity.
Qed.

(** X8: when [_makeRequest] throws in every state, as the method of the
    class itself does, the loop neither returns nor throws however long it
    runs: every attempt ends in the sleep of its delay, and the next one
    follows. *)
Theorem execute_never_returns (fuel attempt : nat) (w : State * list event) :
  (∀ s, ∃ e s', _makeRequest this s = (Throw e, s')) →
  ∃ w', executeFrom getNetworkChannel fuel this client attempt w = (None, w') ∧
        slept w'.2 = slept w.2 ++ map delayOf (seq attempt fuel).
Proof.
  intros Hthrows. revert attempt w.
  induction fuel as [|fuel IH]; intros attempt w.
  - exists w. cbn. rewrite app_nil_r. auto.
  - rewrite executeFrom_S. destruct w as [s tr].
    destruct (Hthrows s) as (e & s' & Hrequest).
    unfold attemptOnce, sendOnce, andThen, call. cbn [fst snd]. rewrite Hrequest.
    destruct (IH (S attempt)
                (s', tr ++ [ConsoleLog "Grpc Error:" (inr e); Sleep (delayOf attempt)]))
      as (w' & Hloop & Hslept).
    exists w'. split; [exact Hloop|].
    cbn [fst snd] in *. rewrite Hslept, slept_app. cbn.
    rewrite <- app_assoc. reflexivity.
Qed.

End ExecutableProperties.

(** ** The further properties at work on the sample implementation *)

Section MoreSamples.
#[local] Existing Instance sample_primitives.
#[local] Existing Instance sample_keystore.

Example deriveAll_sample :
  (try k ← fromMnemonic sample_mnemonic "secret";
   try child ← deriveAll k [7; 0]%Z;
   Ok (supportsDerivation child, length (toBytes child)))
  = Ok (true, 32).
Proof. vm_compute. reflexivity. Qed.

Lemma deriveAll_composes_witness :
  let k := set_chainCode (seedKey sample_seed) sample_seed in
  is_Some (_chainCode k) ∧
  ∃ k', deriveAll k [7; 0]%Z = Ok k' ∧ supportsDerivation k' = true.
Proof.
  intros k.
  assert (Hk : is_Some (_chainCode k)) by (eexists; reflexivity).
  split; [exact Hk|].
  apply (deriveAll_composes k [7; 0]%Z []). exact Hk.
Defined.

Lemma fromBytes_toBytes_restores_key_witness :
  let k := seedKey (randomBytes (λ _, x2a) 32) in
  Built ByGenerate k ∧ computesPublicKey ByGenerate = true ∧
  ∃ k', fromBytes (toBytes k) = Ok k' ∧
        _keyData k' = _keyData k ∧ key_publicKey k' = key_publicKey k ∧
        _asStringRaw k' = None ∧ _chainCode k' = None.
Proof.
  intros k.
  assert (Hk : Built ByGenerate k)
    by (apply (built_generate (λ _, x2a)); reflexivity).
  split; [exact Hk|]. split; [reflexivity|].
  apply (fromBytes_toBytes_restores_key ByGenerate k Hk). reflexivity.
Defined.

Lemma fromString_prefix_optional_witness :
  String.length sample_text = 64 ∧
  fromString (sample_prefix +:+ sample_text) = fromString sample_text.
Proof.
  split; [reflexivity|].
  apply (fromString_prefix_optional (prims := sample_primitives) sample_text).
  reflexivity.
Defined.

Example execute_sample :
  execute sample_network 5 (sample_executable 2 0) tt (0, [])
  = (Some (Ok 2),
     (3, [ConsoleLog "Grpc Error:" (inr (Error "unavailable")); Sleep (Finite 250);
          ConsoleLog "Grpc Error:" (inr (Error "unavailable")); Sleep (Finite 500)])).
Proof. vm_compute. reflexivity. Qed.

Example execute_busy_sample :
  execute sample_network 5 (sample_busy_executable 1 Fulfils) tt (0, [])
  = (Some (Ok 1),
     (2, [ConsoleLog "Bad response status:" (inl {| code := 12 |}); Sleep (Finite 250);
          ConsoleLog "Grpc Error:" (inr (Error "unreadable")); Sleep (Finite 250);
          ConsoleLog "Bad response status:" (inl {| code := 12 |}); Sleep (Finite 500)])).
Proof. vm_compute. reflexivity. Qed.

Lemma execute_rejects_in_two_ways_witness :
  let this := sample_busy_executable 0 (λ _, Rejects (Error "gone")) in
  let w' := (1, [ConsoleLog "Bad response status:" (inl {| code := 12 |});
                 Sleep (delayOf 0)]) in
  execute sample_network 3 this tt (0, []) = (Some (Throw (Error "gone")), w') ∧
  ((_onExecute this tt 0 = (Throw (Error "gone"), 1) ∧ w'.2 = []) ∨
   (∃ response nodeId request s,
      _mapResponse this response nodeId request s = (Ok (Rejects (Error "gone")), 1))).
Proof.
  intros this w'.
  assert (Hrun : execute sample_network 3 this tt (0, [])
                 = (Some (Throw (Error "gone")), w'))
    by reflexivity.
  split; [exact Hrun|].
  apply (execute_rejects_in_two_ways sample_network this tt 3 (0, [])
           (Error "gone") w' Hrun).
Defined.

Lemma execute_returns_first_response_witness :
  executeFrom sample_network 1 (sample_executable 0 12) tt 0 (0, [])
  = (Some (Ok 0),
     (1, [] ++ [ConsoleLog "Bad response status:" (inl {| code := 12 |});
                Sleep (delayOf 0)])).
Proof.
  refine (execute_returns_first_response sample_network (sample_executable 0 12) tt
            0 0 [] 0 0 0 0 0 0 1 1 1 1 0 3 tt _ 0 {| code := 12 |} true (Fulfils 0)
            eq_refl eq_refl eq_refl eq_refl eq_refl eq_refl eq_refl eq_refl eq_refl).
Defined.

Lemma failing_attempts_back_off_witness :
  let this := sample_busy_executable 1 Fulfils in
  let w' := (1, [ConsoleLog "Bad response status:" (inl {| code := 12 |});
                 Sleep (delayOf 0);
                 ConsoleLog "Grpc Error:" (inr (Error "unreadable"));
                 Sleep (delayOf 0)]) in
  Failing sample_network this tt 0 [true] (0, []) w' ∧
  (∀ fuel,
     executeFrom sample_network (1 + fuel) this tt 0 (0, [])
     = executeFrom sample_network fuel this tt (0 + 1) w') ∧
  slept w'.2 = [] ++ [delayOf 0; delayOf 0].
Proof.
  intros this w'.
  assert (Hfail : Failing sample_network this tt 0
                    [retriedIn sample_network this tt (0, [])] (0, []) w')
    by (eapply failing_more; [reflexivity | apply failing_none]).
  split; [exact Hfail|].
  apply (failing_attempts_back_off sample_network this tt 0 [true] (0, []) w' Hfail).
Defined.

Lemma execute_never_returns_witness :
  let this : HederaExecutable nat unit unit nat nat nat nat :=
    abstractExecutable {| code := 12 |} in
  (∀ s, ∃ e s', _makeRequest this s = (Throw e, s')) ∧
  ∃ w', executeFrom sample_network 4 this tt 0 (0, []) = (None, w') ∧
        slept w'.2 = slept [] ++ map delayOf (seq 0 4).
Proof.
  intros this.
  assert (Hthrows : ∀ s, ∃ e s', _makeRequest this s = (Throw e, s'))
    by (intros s; eexists; eexists; reflexivity).
  split; [exact Hthrows|].
  apply (execute_never_returns sample_network this tt 4 0 (0, []) Hthrows).
Defined.

End MoreSamples.
